(** * colorlog: a shallow embedding of [include/colorlog.hpp]

    The development follows the header top to bottom: the process-wide
    terminal cache and colour gate, the level and mode enumerations, the
    logger configuration, the synchronous [Logger] and the asynchronous
    [AsyncLogger].  Output streams are modelled by the bytes they have
    received so far, the file system by a finite map from paths to file
    contents, and a C++ call that may throw by an [outcome]. *)

From Stdlib Require Import ZArith Lia Ascii.
From stdpp Require Import gmap strings pretty.

Local Open Scope Z_scope.

(** ** Characters used by the header *)

(** ["\033"], the escape character that opens every ANSI sequence. *)
Definition ESC : ascii := "027"%char.
(** The line feed written by [std::endl]. *)
Definition endl : string := String "010"%char "".
(** ["\033[0m"], the reset sequence written after a coloured level name. *)
Definition RESET : string := String ESC "[0m".

(** ** Exceptions

    A C++ [throw] either raises an object of a class derived from
    [std::exception], which carries [typeid(e).name()] and [e.what()], or a
    value of any other type ([throw 42;]).  A handler written
    [catch (const std::exception&)] matches the first kind only. *)

Record exception := { type_name : string; what : string }.

Inductive thrown :=
| ThrowStd (e : exception)
| ThrowOther.

Inductive outcome (A : Type) :=
| Ok (a : A)
| Throw (t : thrown).
Arguments Ok {A} a.
Arguments Throw {A} t.

(** How a call ends for its caller. *)
Inductive Completion :=
| Returned
| Propagates (t : thrown).

(** ** Log levels and output modes *)

(** [enum class LogLevel { debug, info, warn, error, fatal, trace, unknown }] *)
Inductive LogLevel := debug | info | warn | error | fatal | trace | unknown.

(** [enum class OutputMode { Console, File, Both }] *)
Inductive OutputMode := Console | File | Both.

(** [static_cast<int>(level)]: enumerators count from zero in declaration
    order. *)
Definition rank (level : LogLevel) : Z :=
  match level with
  | debug => 0 | info => 1 | warn => 2 | error => 3
  | fatal => 4 | trace => 5 | unknown => 6
  end.

Definition LOG_LEVEL_DEBUG : Z := 0.
Definition LOG_LEVEL_INFO : Z := 1.
Definition LOG_LEVEL_WARN : Z := 2.
Definition LOG_LEVEL_ERROR : Z := 3.
Definition LOG_LEVEL_FATAL : Z := 4.
Definition LOG_LEVEL_TRACE : Z := 5.

Global Instance LogLevel_eq_dec : EqDecision LogLevel.
Proof. solve_decision. Defined.

Global Instance LogLevel_countable : Countable LogLevel.
Proof.
  refine (inj_countable'
    (fun l => Z.to_nat (rank l))
    (fun n => match n with
              | 0 => debug | 1 => info | 2 => warn | 3 => error
              | 4 => fatal | 5 => trace | _ => unknown
              end%nat) _).
  intros []; reflexivity.
Defined.

(** The seven levels in the order the specification lists them. *)
Definition spec_level_order : list LogLevel :=
  [trace; debug; info; warn; error; fatal; unknown].

(** The seven levels in the order the enumeration declares them. *)
Definition enum_level_order : list LogLevel :=
  [debug; info; warn; error; fatal; trace; unknown].

(** Whether the ranks strictly ascend along a list of levels. *)
Fixpoint ranks_ascending (ls : list LogLevel) : bool :=
  match ls with
  | a :: (b :: _) as rest => (rank a <? rank b) && ranks_ascending rest
  | _ => true
  end.

(** ** The process: build constants, terminal cache, streams and files *)

(** [TerminalCache]: the two answers of [isatty], taken once when the
    singleton is constructed. *)
Record TerminalCache := {
  is_stdout_terminal_ : bool;
  is_stderr_terminal_ : bool;
}.

(** What is fixed for one run of the program: the value the [LOG_LEVEL]
    macro had when the header was compiled ([LOG_LEVEL_DEBUG] unless the
    build defines it), the terminal cache, and the lines
    [backtrace_symbols] would return, which the model leaves opaque. *)
Record Process := {
  LOG_LEVEL : Z;
  terminal : TerminalCache;
  backtrace_lines : list string;
}.

(** What changes while the program runs: the bytes received by the two
    standard streams, the files on disk, whether a path can be opened for
    appending, and the global flag [is_global_colored]. *)
Record World := {
  cout_bytes : string;
  cerr_bytes : string;
  files : gmap string string;
  openable : string → bool;
  is_global_colored : bool;
}.

(** The [std::ostream] objects the header refers to by address. *)
Inductive ostream := std_cout | std_cerr | log_file_stream.

(** [TerminalCache::is_terminal] *)
Definition is_terminal (tc : TerminalCache) (os : ostream) : bool :=
  match os with
  | std_cout => is_stdout_terminal_ tc
  | std_cerr => is_stderr_terminal_ tc
  | log_file_stream => false
  end.

(** [check_color] *)
Definition check_color (p : Process) (w : World) (stream : ostream) : bool :=
  is_global_colored w && is_terminal (terminal p) stream.

(** *** [std::ofstream]

    The state of the logger's [log_file_]: the path of the file it has
    open, if any, and whether a failure bit is set.  [open] follows the
    standard library: [basic_filebuf::open] fails when a file is already
    open, and [basic_ofstream::open] then sets [failbit] and leaves the
    stream attached to the old file; when it succeeds it clears the
    state.  An insertion into a stream that is not good writes nothing. *)
Record ofstream := {
  opened : option string;
  failbit : bool;
}.

Definition closed_ofstream : ofstream := {| opened := None; failbit := false |}.

Definition is_open (f : ofstream) : bool :=
  match opened f with Some _ => true | None => false end.

Definition set_files (fsys : gmap string string) (w : World) : World :=
  {| cout_bytes := cout_bytes w; cerr_bytes := cerr_bytes w; files := fsys;
     openable := openable w; is_global_colored := is_global_colored w |}.

(** [f.open(filename, std::ios::out | std::ios::app)]: an existing file keeps
    its content, a missing one is created empty. *)
Definition ofstream_open (f : ofstream) (filename : string) (w : World)
  : ofstream * World :=
  match opened f with
  | Some _ => ({| opened := opened f; failbit := true |}, w)
  | None =>
      if openable w filename
      then ({| opened := Some filename; failbit := false |},
            set_files (<[filename := default "" (files w !! filename)]> (files w)) w)
      else ({| opened := None; failbit := true |}, w)
  end.

(** [f << s] on the file stream, in append mode. *)
Definition ofstream_put (f : ofstream) (s : string) (w : World) : World :=
  match opened f with
  | Some path =>
      if failbit f then w
      else set_files (<[path := default "" (files w !! path) +:+ s]> (files w)) w
  | None => w
  end.

Definition cerr_put (s : string) (w : World) : World :=
  {| cout_bytes := cout_bytes w; cerr_bytes := cerr_bytes w +:+ s;
     files := files w; openable := openable w;
     is_global_colored := is_global_colored w |}.

Definition cout_put (s : string) (w : World) : World :=
  {| cout_bytes := cout_bytes w +:+ s; cerr_bytes := cerr_bytes w;
     files := files w; openable := openable w;
     is_global_colored := is_global_colored w |}.

(** [stream << s], for a stream that may be the logger's file. *)
Definition put (log_file : ofstream) (stream : ostream) (s : string) (w : World)
  : World :=
  match stream with
  | std_cout => cout_put s w
  | std_cerr => cerr_put s w
  | log_file_stream => ofstream_put log_file s w
  end.

(** [apply_code] *)
Definition apply_code (p : Process) (log_file : ofstream) (stream : ostream)
    (code : string) (w : World) : World :=
  if check_color p w stream then put log_file stream code w else w.

(** The content of the file at [path], empty when there is none. *)
Definition file_content (w : World) (path : string) : string :=
  default "" (files w !! path).

(** ** Colours *)

Record ColorAttr := { code : string }.

Module ColorDefs.
Definition debug : ColorAttr := {| code := String ESC "[36m" |}.
Definition info : ColorAttr := {| code := String ESC "[1;33m" |}.
Definition warn : ColorAttr := {| code := String ESC "[33m" |}.
Definition error : ColorAttr := {| code := String ESC "[1;31m" |}.
Definition fatal : ColorAttr := {| code := String ESC "[35m" |}.
Definition trace : ColorAttr := {| code := String ESC "[32m" |}.
Definition unknown : ColorAttr := {| code := String ESC "[34m" |}.
End ColorDefs.

(** ** Formatter and configuration *)

(** [LogFormatter]: a [std::function] returning the formatted text, or
    throwing. *)
Definition LogFormatter : Type :=
  LogLevel → string → Z → string → outcome string.

(** The lambda that initialises [LoggerConfig::formatter]. *)
Definition default_formatter : LogFormatter :=
  fun _ file line msg =>
    let oss := "" in
    let oss :=
      if negb (String.eqb file "") && (0 <? line)
      then oss +:+ file +:+ ":" +:+ pretty line +:+ " "
      else oss in
    let oss := oss +:+ msg in
    Ok oss.

Record LoggerConfig := {
  log_level : LogLevel;
  output_mode : OutputMode;
  log_file_name : string;
  formatter : LogFormatter;
}.

(** [LoggerConfig()] with its default member initialisers. *)
Definition default_config : LoggerConfig :=
  {| log_level := info; output_mode := Console; log_file_name := "";
     formatter := default_formatter |}.

(** ** Messages

    [Logger::log] is a template over the message type [T].  The model
    keeps the shapes the concepts admit: a [std::string], a C string
    ([const char*] or a character array), a container of printable
    elements, and any other printable object.  An element or object of a
    user type is represented by what its [operator<<] does: insert some
    text or throw. *)

Inductive Item :=
| ItChar (c : ascii)
| ItString (s : string)
| ItInt (z : Z)
| ItObject (shown : outcome string).

Inductive Message :=
| StdString (s : string)
| CString (s : string)
| Container (items : list Item)
| Object (shown : outcome string).

(** [oss << item]: the text one insertion adds. *)
Definition print_item (item : Item) : outcome string :=
  match item with
  | ItChar c => Ok (String c "")
  | ItString s => Ok s
  | ItInt z => Ok (pretty z)
  | ItObject shown => shown
  end.

(** The range [msg.begin() .. msg.end()], for the types that have one.  A
    [std::string] is such a type: its elements are its characters. *)
Definition begin_end (msg : Message) : option (list Item) :=
  match msg with
  | StdString s => Some (ItChar <$> String.list_ascii_of_string s)
  | Container items => Some items
  | CString _ | Object _ => None
  end.

(** The concept [Iterable<T>]. *)
Definition Iterable (msg : Message) : bool :=
  match begin_end msg with Some _ => true | None => false end.

(** [for (const auto& item : msg) oss << item;] starting from the text
    already in [oss]. *)
Fixpoint stream_items (items : list Item) (oss : string) : outcome string :=
  match items with
  | [] => Ok oss
  | item :: rest =>
      match print_item item with
      | Ok text => stream_items rest (oss +:+ text)
      | Throw t => Throw t
      end
  end.

(** The rendering step of [Logger::log], giving [oss.str()].  The
    [if constexpr (Iterable<T>)] statement streams the elements of a type
    that has [begin()] and [end()], and inserts any other message whole. *)
Definition render (msg : Message) : outcome string :=
  match msg with
  | StdString s => stream_items (ItChar <$> String.list_ascii_of_string s) ""
  | Container items => stream_items items ""
  | CString s => Ok s
  | Object shown => shown
  end.

(** ** The synchronous logger *)

(** An error handler: a callback that acts on the world and may throw. *)
Abbreviation Handler := (exception → World → World * Completion)%type.

Record Logger := {
  log_level_ : LogLevel;
  output_mode_ : OutputMode;
  formatter_ : LogFormatter;
  log_level_colors_ : gmap LogLevel ColorAttr;
  log_file_ : ofstream;
  handlers_ : gmap string Handler;
  default_handler_ : Handler;
}.

(** The lambda that initialises [default_handler_]. *)
Definition stock_default_handler : Handler :=
  fun e w =>
    (cerr_put endl (cerr_put (what e) (cerr_put "Unhandled exception: " w)),
     Returned).

Definition initial_colors : gmap LogLevel ColorAttr :=
  <[unknown := ColorDefs.unknown]>
  (<[trace := ColorDefs.trace]>
  (<[fatal := ColorDefs.fatal]>
  (<[error := ColorDefs.error]>
  (<[warn := ColorDefs.warn]>
  (<[info := ColorDefs.info]>
  (<[debug := ColorDefs.debug]> ∅)))))).

Definition with_log_file (f : ofstream) (lg : Logger) : Logger :=
  {| log_level_ := log_level_ lg; output_mode_ := output_mode_ lg;
     formatter_ := formatter_ lg; log_level_colors_ := log_level_colors_ lg;
     log_file_ := f; handlers_ := handlers_ lg;
     default_handler_ := default_handler_ lg |}.

(** [Logger::Logger(const LoggerConfig&)] *)
Definition Logger_new (config : LoggerConfig) (w : World) : Logger * World :=
  let lg :=
    {| log_level_ := log_level config;
       output_mode_ := output_mode config;
       formatter_ := formatter config;
       log_level_colors_ := initial_colors;
       log_file_ := closed_ofstream;
       handlers_ := ∅;
       default_handler_ := stock_default_handler |} in
  if negb (String.eqb (log_file_name config) "")
  then
    let '(f, w) := ofstream_open (log_file_ lg) (log_file_name config) w in
    (with_log_file f lg, w)
  else (lg, w).

(** [Logger::set_log_level] *)
Definition set_log_level (level : LogLevel) (lg : Logger) : Logger :=
  {| log_level_ := level; output_mode_ := output_mode_ lg;
     formatter_ := formatter_ lg; log_level_colors_ := log_level_colors_ lg;
     log_file_ := log_file_ lg; handlers_ := handlers_ lg;
     default_handler_ := default_handler_ lg |}.

(** [Logger::set_log_level_color] *)
Definition set_log_level_color (level : LogLevel) (color : string) (lg : Logger)
  : Logger :=
  {| log_level_ := log_level_ lg; output_mode_ := output_mode_ lg;
     formatter_ := formatter_ lg;
     log_level_colors_ := <[level := {| code := color |}]> (log_level_colors_ lg);
     log_file_ := log_file_ lg; handlers_ := handlers_ lg;
     default_handler_ := default_handler_ lg |}.

(** [Logger::set_output_mode] *)
Definition set_output_mode (mode : OutputMode) (lg : Logger) : Logger :=
  {| log_level_ := log_level_ lg; output_mode_ := mode;
     formatter_ := formatter_ lg; log_level_colors_ := log_level_colors_ lg;
     log_file_ := log_file_ lg; handlers_ := handlers_ lg;
     default_handler_ := default_handler_ lg |}.

(** [Logger::set_log_file]: [log_file_.open(...)] on the stream as it is,
    open or not. *)
Definition set_log_file (filename : string) (lg : Logger) (w : World)
  : Logger * World :=
  let '(f, w) := ofstream_open (log_file_ lg) filename w in
  (with_log_file f lg, w).

(** [Logger::set_formatter] *)
Definition set_formatter (fmt : LogFormatter) (lg : Logger) : Logger :=
  {| log_level_ := log_level_ lg; output_mode_ := output_mode_ lg;
     formatter_ := fmt; log_level_colors_ := log_level_colors_ lg;
     log_file_ := log_file_ lg; handlers_ := handlers_ lg;
     default_handler_ := default_handler_ lg |}.

(** [Logger::register_error_handler]: [handlers_[exception_type] = handler] *)
Definition register_error_handler (exception_type : string) (handler : Handler)
    (lg : Logger) : Logger :=
  {| log_level_ := log_level_ lg; output_mode_ := output_mode_ lg;
     formatter_ := formatter_ lg; log_level_colors_ := log_level_colors_ lg;
     log_file_ := log_file_ lg;
     handlers_ := <[exception_type := handler]> (handlers_ lg);
     default_handler_ := default_handler_ lg |}.

(** [Logger::set_default_error_handler] *)
Definition set_default_error_handler (handler : Handler) (lg : Logger) : Logger :=
  {| log_level_ := log_level_ lg; output_mode_ := output_mode_ lg;
     formatter_ := formatter_ lg; log_level_colors_ := log_level_colors_ lg;
     log_file_ := log_file_ lg; handlers_ := handlers_ lg;
     default_handler_ := handler |}.

(** [Logger::logLevelToString] *)
Definition logLevelToString (level : LogLevel) : string :=
  match level with
  | debug => "DEBUG" | info => "INFO" | warn => "WARNING" | error => "ERROR"
  | fatal => "FATAL" | trace => "TRACE" | unknown => "UNKNOWN"
  end.

(** [Logger::getLogStream] *)
Definition getLogStream (lg : Logger) : ostream :=
  match output_mode_ lg, is_open (log_file_ lg) with
  | File, true => log_file_stream
  | Both, true => log_file_stream
  | _, _ => std_cerr
  end.

(** [log_level_colors_[level].code]: a missing key reads as a
    default-constructed attribute. *)
Definition level_color (lg : Logger) (level : LogLevel) : string :=
  code (default {| code := "" |} (log_level_colors_ lg !! level)).

(** [Logger::applyLogLevelColor], the branch compiled outside Windows. *)
Definition applyLogLevelColor (p : Process) (lg : Logger) (os : ostream)
    (level : LogLevel) (w : World) : World :=
  apply_code p (log_file_ lg) os (level_color lg level) w.

(** The [catch (const std::exception& e)] clause of [Logger::log]. *)
Definition log_catch (t : thrown) (w : World) : World * Completion :=
  match t with
  | ThrowStd e =>
      (cerr_put endl (cerr_put (what e) (cerr_put "Logging exception: " w)),
       Returned)
  | ThrowOther => (w, Propagates ThrowOther)
  end.

(** The statements of the [try] block that follow the formatter call.  The
    stream insertions keep the order of the source; none of them throws,
    as no stream of the header has an exception mask set. *)
Definition write_record (p : Process) (lg : Logger) (level : LogLevel)
    (formattedMsg : string) (w : World) : World :=
  let logStream := getLogStream lg in
  let out := put (log_file_ lg) logStream in
  let w := out "[" w in
  let w :=
    if check_color p w logStream
    then
      let w := applyLogLevelColor p lg logStream level w in
      let w := out (logLevelToString level) w in
      out RESET w
    else out (logLevelToString level) w in
  let w := out "] " w in
  let w := out formattedMsg w in
  let w := out endl w in
  match output_mode_ lg, is_open (log_file_ lg) with
  | Both, true =>
      let file_out := ofstream_put (log_file_ lg) in
      let w := file_out "[" w in
      let w := file_out (logLevelToString level) w in
      let w := file_out "] " w in
      let w := file_out formattedMsg w in
      file_out endl w
  | _, _ => w
  end.

(** [Logger::log] *)
Definition log (p : Process) (lg : Logger) (level : LogLevel) (file : string)
    (line : Z) (msg : Message) (w : World) : World * Completion :=
  if rank level <? LOG_LEVEL p then (w, Returned)
  else
    match render msg with
    | Throw t => log_catch t w
    | Ok text =>
        match formatter_ lg level file line text with
        | Throw t => log_catch t w
        | Ok formattedMsg => (write_record p lg level formattedMsg w, Returned)
        end
    end.

(** [Logger::error(file, line, msg)], one of the per-level wrappers. *)
Definition Logger_error (p : Process) (lg : Logger) (file : string) (line : Z)
    (msg : Message) (w : World) : World * Completion :=
  log p lg error file line msg w.

(** [Logger::log_stack_trace] *)
Definition log_stack_trace (p : Process) (w : World) : World :=
  let w := cerr_put endl (cerr_put "Stack trace:" w) in
  foldl (fun w message => cerr_put endl (cerr_put message w)) w
        (backtrace_lines p).

(** [Logger::handle_error] *)
Definition handle_error (p : Process) (lg : Logger) (e : exception)
    (context : string) (w : World) : World * Completion :=
  match Logger_error p lg context 0 (CString (what e)) w with
  | (w, Propagates t) => (w, Propagates t)
  | (w, Returned) =>
      let w := log_stack_trace p w in
      match handlers_ lg !! type_name e with
      | Some handler => handler e w
      | None => default_handler_ lg e w
      end
  end.

(** ** The asynchronous logger *)

(** [AsyncLogger::LogEntry]: the constructor converts the message to a
    [std::string]. *)
Record LogEntry := {
  level : LogLevel;
  file : string;
  line : Z;
  msg : string;
}.

(** The data members of [AsyncLogger], the queue with its front first. *)
Record AsyncLogger := {
  logger_ : Logger;
  log_queue_ : list LogEntry;
  stop_thread_ : bool;
}.

(** Where the worker thread stands in [processQueue]: blocked in (or about
    to enter) [cv_.wait] without the mutex; inside the drain loop holding
    [queue_mutex_]; returned from [processQueue]; or ended by
    [std::terminate] because an exception left the thread function. *)
Inductive WorkerPc := Waiting | Draining | Exited | Terminated.

(** Where the single producer stands: it still has records to submit, in
    order; it has set the stop flag in the destructor and waits in
    [worker_thread_.join()]; or the destructor has returned. *)
Inductive ProducerPc :=
| Submitting (pending : list LogEntry)
| Joining
| Destroyed.

Record System := {
  async : AsyncLogger;
  worker : WorkerPc;
  producer : ProducerPc;
  world : World;
  received : list LogEntry;   (* the calls made to [logger_.log], oldest first *)
}.

Definition queue (s : System) : list LogEntry := log_queue_ (async s).
Definition stopped (s : System) : bool := stop_thread_ (async s).

Definition pending_of (pc : ProducerPc) : list LogEntry :=
  match pc with Submitting l => l | _ => [] end.

(** [logger_.log(log_entry.level, log_entry.file, log_entry.line, log_entry.msg)] *)
Definition forward (p : Process) (lg : Logger) (r : LogEntry) (w : World)
  : World * Completion :=
  log p lg (level r) (file r) (line r) (StdString (msg r)) w.

(** [AsyncLogger::AsyncLogger(config)] followed by the producer's program:
    submit [rs] in order, then destroy the logger. *)
Definition async_init (config : LoggerConfig) (rs : list LogEntry) (w : World)
  : System :=
  let '(lg, w) := Logger_new config w in
  {| async := {| logger_ := lg; log_queue_ := []; stop_thread_ := false |};
     worker := Waiting; producer := Submitting rs; world := w; received := [] |}.

(** One atomic action of either thread.  Everything done between taking
    and releasing [queue_mutex_] by the producer is one action; the worker
    keeps the mutex through the whole drain loop, so it takes one action
    per forwarded entry while the producer cannot move. *)
Inductive step (p : Process) : System → System → Prop :=
| producer_log lg q st wk r rest w rcv :
    (* [AsyncLogger::log]: lock, [emplace], [notify_one] *)
    wk ≠ Draining → wk ≠ Terminated →
    step p
      {| async := {| logger_ := lg; log_queue_ := q; stop_thread_ := st |};
         worker := wk; producer := Submitting (r :: rest);
         world := w; received := rcv |}
      {| async := {| logger_ := lg; log_queue_ := q ++ [r]; stop_thread_ := st |};
         worker := wk; producer := Submitting rest;
         world := w; received := rcv |}
| producer_stop lg q st wk w rcv :
    (* [~AsyncLogger]: lock, [stop_thread_ = true], unlock, [notify_all] *)
    wk ≠ Draining → wk ≠ Terminated →
    step p
      {| async := {| logger_ := lg; log_queue_ := q; stop_thread_ := st |};
         worker := wk; producer := Submitting [];
         world := w; received := rcv |}
      {| async := {| logger_ := lg; log_queue_ := q; stop_thread_ := true |};
         worker := wk; producer := Joining;
         world := w; received := rcv |}
| producer_join a w rcv :
    (* [worker_thread_.join()] returns once the worker has *)
    step p
      {| async := a; worker := Exited; producer := Joining;
         world := w; received := rcv |}
      {| async := a; worker := Exited; producer := Destroyed;
         world := w; received := rcv |}
| worker_wake a pc w rcv :
    (* [cv_.wait] returns with the mutex once its predicate holds *)
    log_queue_ a ≠ [] ∨ stop_thread_ a = true →
    step p
      {| async := a; worker := Waiting; producer := pc;
         world := w; received := rcv |}
      {| async := a; worker := Draining; producer := pc;
         world := w; received := rcv |}
| worker_forward lg r q st pc w w' rcv :
    (* [logger_.log(front)] returns, then [log_queue_.pop()] *)
    forward p lg r w = (w', Returned) →
    step p
      {| async := {| logger_ := lg; log_queue_ := r :: q; stop_thread_ := st |};
         worker := Draining; producer := pc; world := w; received := rcv |}
      {| async := {| logger_ := lg; log_queue_ := q; stop_thread_ := st |};
         worker := Draining; producer := pc; world := w';
         received := rcv ++ [r] |}
| worker_crash lg r q st pc w w' t rcv :
    (* [logger_.log(front)] throws: nothing in [processQueue] catches *)
    forward p lg r w = (w', Propagates t) →
    step p
      {| async := {| logger_ := lg; log_queue_ := r :: q; stop_thread_ := st |};
         worker := Draining; producer := pc; world := w; received := rcv |}
      {| async := {| logger_ := lg; log_queue_ := r :: q; stop_thread_ := st |};
         worker := Terminated; producer := pc; world := w';
         received := rcv ++ [r] |}
| worker_loop lg pc w rcv :
    (* queue empty, [stop_thread_] false: release the mutex, next iteration *)
    step p
      {| async := {| logger_ := lg; log_queue_ := []; stop_thread_ := false |};
         worker := Draining; producer := pc; world := w; received := rcv |}
      {| async := {| logger_ := lg; log_queue_ := []; stop_thread_ := false |};
         worker := Waiting; producer := pc; world := w; received := rcv |}
| worker_exit lg pc w rcv :
    (* queue empty, [stop_thread_] true: [break] *)
    step p
      {| async := {| logger_ := lg; log_queue_ := []; stop_thread_ := true |};
         worker := Draining; producer := pc; world := w; received := rcv |}
      {| async := {| logger_ := lg; log_queue_ := []; stop_thread_ := true |};
         worker := Exited; producer := pc; world := w; received := rcv |}.

(** The states an execution can reach. *)
Inductive reachable (p : Process) (s0 : System) : System → Prop :=
| reach_start : reachable p s0 s0
| reach_step s s' : reachable p s0 s → step p s s' → reachable p s0 s'.

(** What the calls [logger_.log(r)] for [rs], made in order, do to the
    world. *)
Definition replay (p : Process) (lg : Logger) (rs : list LogEntry) (w : World)
  : World :=
  foldl (fun w r => (forward p lg r w).1) w rs.

(** A bound on the number of actions still to come. *)
Definition fuel (s : System) : nat :=
  (match producer s with
   | Submitting l => 8 * length l + 6
   | Joining => 1
   | Destroyed => 0
   end
   + 4 * length (queue s)
   + match worker s with
     | Waiting =>
         match queue s, stopped s with
         | [], false => 0
         | _, _ => 2
         end
     | Draining => 1
     | Exited | Terminated => 0
     end)%nat.

(** A formatter that never throws anything outside [std::exception]. *)
Definition throws_only_std (fmt : LogFormatter) : Prop :=
  ∀ lvl f l m, fmt lvl f l m ≠ Throw ThrowOther.

(** ** Vocabulary of the properties *)

(** The line [[<LEVEL>] <formatted message>] without decoration. *)
Definition plain_line (level : LogLevel) (formattedMsg : string) : string :=
  "[" +:+ logLevelToString level +:+ "] " +:+ formattedMsg +:+ endl.

(** The same line with the level name wrapped in the level's colour code
    and the reset sequence. *)
Definition colored_line (lg : Logger) (level : LogLevel) (formattedMsg : string)
  : string :=
  "[" +:+ level_color lg level +:+ logLevelToString level +:+ RESET
      +:+ "] " +:+ formattedMsg +:+ endl.

(** Whether [needle] occurs in [hay] as a contiguous substring. *)
Fixpoint contains (needle hay : string) : bool :=
  String.prefix needle hay ||
  match hay with
  | EmptyString => false
  | String _ rest => contains needle rest
  end.

(** Fixtures: a build with the default [LOG_LEVEL], no terminal attached,
    and a world in which nothing has been written yet. *)
Definition default_process : Process :=
  {| LOG_LEVEL := LOG_LEVEL_DEBUG;
     terminal := {| is_stdout_terminal_ := false; is_stderr_terminal_ := false |};
     backtrace_lines := [] |}.

Definition tty_process : Process :=
  {| LOG_LEVEL := LOG_LEVEL_DEBUG;
     terminal := {| is_stdout_terminal_ := true; is_stderr_terminal_ := true |};
     backtrace_lines := [] |}.

Definition fresh_world : World :=
  {| cout_bytes := ""; cerr_bytes := ""; files := ∅;
     openable := fun _ => true; is_global_colored := true |}.

Definition runtime_error (message : string) : exception :=
  {| type_name := "St13runtime_error"; what := message |}.

(** ** Further notions and fixtures *)

(** The line that goes to the error stream: coloured when [check_color]
    says so, plain otherwise. *)
Definition console_line (p : Process) (lg : Logger) (w : World)
    (level : LogLevel) (formattedMsg : string) : string :=
  if check_color p w std_cerr
  then colored_line lg level formattedMsg
  else plain_line level formattedMsg.

(** Configurations of the examples: console output with threshold error;
    console and file "t.log"; console only; a given formatter; file
    "a.log" only. *)
Definition error_threshold_config : LoggerConfig :=
  {| log_level := error; output_mode := Console; log_file_name := "";
     formatter := default_formatter |}.

Definition both_config : LoggerConfig :=
  {| log_level := debug; output_mode := Both; log_file_name := "t.log";
     formatter := default_formatter |}.

Definition console_config : LoggerConfig :=
  {| log_level := debug; output_mode := Console; log_file_name := "";
     formatter := default_formatter |}.

(** A formatter that throws a value of a type outside [std::exception],
    and one that throws a [std::runtime_error]. *)
Definition foreign_throwing_formatter : LogFormatter :=
  fun _ _ _ _ => Throw ThrowOther.

Definition std_throwing_formatter : LogFormatter :=
  fun _ _ _ _ => Throw (ThrowStd (runtime_error "bad format")).

Definition config_with (fmt : LogFormatter) : LoggerConfig :=
  {| log_level := info; output_mode := Console; log_file_name := "";
     formatter := fmt |}.

Definition file_config : LoggerConfig :=
  {| log_level := debug; output_mode := File; log_file_name := "a.log";
     formatter := default_formatter |}.

(** [custom_error_handler] of the tests. *)
Definition custom_error_handler : Handler :=
  fun e w =>
    (cerr_put endl (cerr_put (what e)
       (cerr_put "Custom handler caught exception: " w)), Returned).

(** What holds in every state of a run: the logger is the one the
    constructor built; the records are, in order, those forwarded, those
    queued and those not yet submitted; the world is what the forwarded
    calls made of it; the worker has not been terminated; the stop flag is
    set exactly when the producer has entered the destructor; and a worker
    that has returned left the queue empty. *)
Definition async_inv (p : Process) (lg : Logger) (w0 : World)
    (rs : list LogEntry) (s : System) : Prop :=
  logger_ (async s) = lg
  ∧ received s ++ queue s ++ pending_of (producer s) = rs
  ∧ world s = replay p lg (received s) w0
  ∧ worker s ≠ Terminated
  ∧ match producer s with
    | Submitting _ => stopped s = false ∧ worker s ≠ Exited
    | Joining => stopped s = true
    | Destroyed => stopped s = true ∧ worker s = Exited
    end
  ∧ (worker s = Exited → queue s = []).

(** Two records for a run of the asynchronous logger. *)
Definition two_records : list LogEntry :=
  [ {| level := info; file := "a.cpp"; line := 10; msg := "one" |};
    {| level := warn; file := "a.cpp"; line := 20; msg := "two" |} ].

(** The state after the producer has submitted [two_records] to a default
    asynchronous logger and destroyed it. *)
Definition two_records_done : System :=
  let '(lg, w) := Logger_new default_config fresh_world in
  {| async := {| logger_ := lg; log_queue_ := []; stop_thread_ := true |};
     worker := Exited; producer := Destroyed;
     world := replay default_process lg two_records w;
     received := two_records |}.

(** ** Callers and the second header *)

(** One call [logger.log(level, file, line, msg)] as a caller writes it. *)
Record Call := {
  c_level : LogLevel;
  c_file : string;
  c_line : Z;
  c_msg : Message;
}.

(** A caller's statements [logger.log(c1); logger.log(c2); ...]: a call
    that lets an exception escape ends the sequence. *)
Fixpoint log_all (p : Process) (lg : Logger) (calls : list Call) (w : World)
  : World * Completion :=
  match calls with
  | [] => (w, Returned)
  | c :: rest =>
      match log p lg (c_level c) (c_file c) (c_line c) (c_msg c) w with
      | (w, Returned) => log_all p lg rest w
      | (w, Propagates t) => (w, Propagates t)
      end
  end.

(** The formatted message of a call, when rendering and formatting both
    succeed. *)
Definition formatted (lg : Logger) (c : Call) : option string :=
  match render (c_msg c) with
  | Ok text =>
      match formatter_ lg (c_level c) (c_file c) (c_line c) text with
      | Ok formattedMsg => Some formattedMsg
      | Throw _ => None
      end
  | Throw _ => None
  end.

(** The plain lines of the calls that pass the floor, in call order. *)
Fixpoint file_lines (p : Process) (lg : Logger) (calls : list Call) : string :=
  match calls with
  | [] => ""
  | c :: rest =>
      (if rank (c_level c) <? LOG_LEVEL p then ""
       else match formatted lg c with
            | Some formattedMsg => plain_line (c_level c) formattedMsg
            | None => ""
            end)
      +:+ file_lines p lg rest
  end.

(** The queue entries as the calls the worker makes for them. *)
Definition calls_of (rs : list LogEntry) : list Call :=
  (fun r => {| c_level := level r; c_file := file r; c_line := line r;
               c_msg := StdString (msg r) |}) <$> rs.

(** What [log_stack_trace] writes: the header line and one line per
    symbol. *)
Definition trace_text (p : Process) : string :=
  "Stack trace:" +:+ endl
  +:+ foldr (fun message rest => message +:+ endl +:+ rest) "" (backtrace_lines p).

(** [custom_formatter] of [tests/colorlog_async_test.cpp]. *)
Definition custom_formatter : LogFormatter :=
  fun _ file line msg =>
    let oss := "" in
    let oss := oss +:+ "[" +:+ file +:+ ":" +:+ pretty line +:+ "] " +:+ msg in
    Ok oss.

(** The configuration and the six calls of [test_file_logging]. *)
Definition test_file_config : LoggerConfig :=
  {| log_level := debug; output_mode := File; log_file_name := "test_log.txt";
     formatter := custom_formatter |}.

Definition test_file_calls : list Call :=
  [ {| c_level := info; c_file := "test_file.cpp"; c_line := 10;
       c_msg := CString "This is a file info message" |};
    {| c_level := debug; c_file := "test_file.cpp"; c_line := 20;
       c_msg := CString "This is a file debug message" |};
    {| c_level := warn; c_file := "test_file.cpp"; c_line := 30;
       c_msg := CString "This is a file warning message" |};
    {| c_level := error; c_file := "test_file.cpp"; c_line := 40;
       c_msg := CString "This is a file error message" |};
    {| c_level := fatal; c_file := "test_file.cpp"; c_line := 50;
       c_msg := CString "This is a file fatal message" |};
    {| c_level := trace; c_file := "test_file.cpp"; c_line := 60;
       c_msg := CString "This is a file trace message" |} ].

(** [include/colorlog_cpp17.hpp] declares the same classes without the
    concepts; its [Logger::log] takes the message as a [std::string] and
    hands it to the formatter as it is. *)
Module Cpp17.

Definition log (p : Process) (lg : Logger) (level : LogLevel) (file : string)
    (line : Z) (msg : string) (w : World) : World * Completion :=
  if rank level <? LOG_LEVEL p then (w, Returned)
  else
    match formatter_ lg level file line msg with
    | Throw t => log_catch t w
    | Ok formattedMsg => (write_record p lg level formattedMsg w, Returned)
    end.

End Cpp17.

(** A world in which no file can be opened, and a logger configuration
    asking for a file. *)
Definition locked_world : World :=
  {| cout_bytes := ""; cerr_bytes := ""; files := ∅;
     openable := fun _ => false; is_global_colored := true |}.

(** A build whose floor is [LOG_LEVEL_FATAL], with two symbols in the
    backtrace. *)
Definition fatal_floor_process : Process :=
  {| LOG_LEVEL := LOG_LEVEL_FATAL;
     terminal := {| is_stdout_terminal_ := false; is_stderr_terminal_ := false |};
     backtrace_lines := ["main+0x10"; "start+0x20"] |}.

(** The state in which a run of [two_records] on a logger whose formatter
    throws a foreign value comes to a halt: both records submitted, the
    stop flag set, the worker ended on the first record. *)
Definition two_records_crashed : System :=
  {| async := {| logger_ := (Logger_new (config_with foreign_throwing_formatter)
                               fresh_world).1;
                 log_queue_ := two_records; stop_thread_ := true |};
     worker := Terminated; producer := Joining; world := fresh_world;
     received := [ {| level := info; file := "a.cpp"; line := 10;
                      msg := "one" |} ] |}.

(** * Properties *)

(** ** Strings *)

Lemma append_cons (c : ascii) (a b : string) :
  String c a +:+ b = String c (a +:+ b).
Proof. reflexivity. Qed.

Lemma append_nil_l (s : string) : "" +:+ s = s.
Proof. reflexivity. Qed.

Lemma append_nil_r (s : string) : s +:+ "" = s.
Proof.
  induction s as [|c s IH]; [reflexivity |].
  now rewrite append_cons, IH.
Qed.

Lemma append_assoc (a b c : string) : (a +:+ b) +:+ c = a +:+ (b +:+ c).
Proof.
  induction a as [|x a IH]; [reflexivity |].
  now rewrite !append_cons, IH.
Qed.

Lemma length_append (a b : string) :
  String.length (a +:+ b) = (String.length a + String.length b)%nat.
Proof.
  induction a as [|x a IH]; [reflexivity |].
  rewrite append_cons. cbn. now rewrite IH.
Qed.

(** ** Levels *)

Lemma rank_inj (a b : LogLevel) : rank a = rank b → a = b.
Proof. destruct a, b; cbn; intros H; first [reflexivity | discriminate H]. Qed.

Lemma rank_range (l : LogLevel) : 0 ≤ rank l ≤ 6.
Proof. destruct l; cbn; lia. Qed.

(** The floor test of [log], the only place where a rank is compared. *)
Lemma log_below_floor p lg level file line msg w :
  rank level < LOG_LEVEL p → log p lg level file line msg w = (w, Returned).
Proof. intros H. unfold log. now apply Z.ltb_lt in H as ->. Qed.

(** C9, as the specification words it: the order trace, debug, info, warn,
    error, fatal, unknown is not ascending in rank, and trace does not rank
    below debug; it ranks above it. *)
Lemma spec_level_order_not_ascending :
  ranks_ascending spec_level_order = false ∧ rank debug < rank trace.
Proof. split; [reflexivity | cbn; lia]. Qed.

(** C9, amended: the ranks ascend in the order debug, info, warn, error,
    fatal, trace, unknown, so debug has the lowest rank and trace ranks
    above fatal; the six level macros carry the same numbers; and this is
    the order the floor test of [log] compares by: a record whose rank is
    below [LOG_LEVEL] changes nothing and returns. *)
Theorem enum_level_order_ascending :
  ranks_ascending enum_level_order = true
  ∧ (∀ l, rank debug ≤ rank l)
  ∧ rank fatal < rank trace < rank unknown
  ∧ (rank debug = LOG_LEVEL_DEBUG ∧ rank info = LOG_LEVEL_INFO
     ∧ rank warn = LOG_LEVEL_WARN ∧ rank error = LOG_LEVEL_ERROR
     ∧ rank fatal = LOG_LEVEL_FATAL ∧ rank trace = LOG_LEVEL_TRACE)
  ∧ (∀ p lg level file line msg w,
       log p lg level file line msg w =
       if rank level <? LOG_LEVEL p then (w, Returned)
       else log p lg level file line msg w).
Proof.
  split; [reflexivity |].
  split; [intros []; cbn; lia |].
  split; [cbn; lia |].
  split; [repeat split |].
  intros p lg level file line msg w.
  destruct (rank level <? LOG_LEVEL p) eqn:E; [| reflexivity].
  apply log_below_floor. now apply Z.ltb_lt.
Qed.

(** ** Stream insertions *)

Lemma cerr_put_put (a b : string) (w : World) :
  cerr_put b (cerr_put a w) = cerr_put (a +:+ b) w.
Proof. unfold cerr_put; cbn. now rewrite append_assoc. Qed.

Lemma ofstream_put_put (f : ofstream) (a b : string) (w : World) :
  ofstream_put f b (ofstream_put f a w) = ofstream_put f (a +:+ b) w.
Proof.
  unfold ofstream_put.
  destruct (opened f) as [path|]; [| reflexivity].
  destruct (failbit f); [reflexivity |].
  unfold set_files; cbn.
  rewrite lookup_insert_eq, insert_insert_eq; cbn.
  now rewrite append_assoc.
Qed.

Lemma ofstream_put_failed (f : ofstream) (s : string) (w : World) :
  failbit f = true → ofstream_put f s w = w.
Proof. unfold ofstream_put. intros ->. now destruct (opened f). Qed.

Lemma file_content_put (f : ofstream) (path s : string) (w : World) :
  opened f = Some path → failbit f = false →
  file_content (ofstream_put f s w) path = file_content w path +:+ s.
Proof.
  unfold ofstream_put, file_content. intros -> ->. cbn.
  now rewrite lookup_insert_eq.
Qed.

Lemma cerr_bytes_ofstream_put (f : ofstream) (s : string) (w : World) :
  cerr_bytes (ofstream_put f s w) = cerr_bytes w.
Proof. unfold ofstream_put. now destruct (opened f), (failbit f). Qed.

Lemma files_cerr_put (s : string) (w : World) : files (cerr_put s w) = files w.
Proof. reflexivity. Qed.

Lemma check_color_file (p : Process) (w : World) :
  check_color p w log_file_stream = false.
Proof. unfold check_color. cbn. apply andb_false_r. Qed.

Lemma check_color_cerr_put (p : Process) (s : string) (w : World) (os : ostream) :
  check_color p (cerr_put s w) os = check_color p w os.
Proof. reflexivity. Qed.

(** ** What one accepted record writes *)

(** The stream insertions of [log], added up per output mode and state of
    the file stream. *)
Lemma write_record_spec p lg level formattedMsg w :
  write_record p lg level formattedMsg w =
  match output_mode_ lg, is_open (log_file_ lg) with
  | File, true =>
      ofstream_put (log_file_ lg) (plain_line level formattedMsg) w
  | Both, true =>
      ofstream_put (log_file_ lg) (plain_line level formattedMsg)
        (ofstream_put (log_file_ lg) (plain_line level formattedMsg) w)
  | _, _ => cerr_put (console_line p lg w level formattedMsg) w
  end.
Proof.
  assert (Hfile : ∀ w0,
    put (log_file_ lg) log_file_stream endl
      (put (log_file_ lg) log_file_stream formattedMsg
        (put (log_file_ lg) log_file_stream "] "
          (put (log_file_ lg) log_file_stream (logLevelToString level)
            (put (log_file_ lg) log_file_stream "[" w0))))
    = ofstream_put (log_file_ lg) (plain_line level formattedMsg) w0).
  { intros w0. cbn [put]. now rewrite !ofstream_put_put, ?append_assoc. }
  assert (Hcerr :
    (let out := put (log_file_ lg) std_cerr in
     let w := out "[" w in
     let w :=
       if check_color p w std_cerr
       then out RESET (out (logLevelToString level)
                         (applyLogLevelColor p lg std_cerr level w))
       else out (logLevelToString level) w in
     out endl (out formattedMsg (out "] " w)))
    = cerr_put (console_line p lg w level formattedMsg) w).
  { cbn [put]. unfold console_line, applyLogLevelColor, apply_code.
    rewrite !check_color_cerr_put.
    destruct (check_color p w std_cerr); cbn [put];
      now rewrite !cerr_put_put, ?append_assoc. }
  unfold write_record, getLogStream.
  destruct (output_mode_ lg), (is_open (log_file_ lg));
    try exact Hcerr;
    rewrite ?check_color_file; cbn zeta;
    rewrite ?check_color_file, Hfile; try reflexivity.
  now rewrite !ofstream_put_put, ?append_assoc.
Qed.

(** A record at or above the floor whose rendering and formatting succeed
    is written, and [log] returns. *)
Lemma log_accepted p lg level file line msg text formattedMsg w :
  LOG_LEVEL p ≤ rank level →
  render msg = Ok text →
  formatter_ lg level file line text = Ok formattedMsg →
  log p lg level file line msg w
  = (write_record p lg level formattedMsg w, Returned).
Proof.
  intros Hfloor Hrender Hfmt. unfold log.
  destruct (rank level <? LOG_LEVEL p) eqn:E; [apply Z.ltb_lt in E; lia |].
  now rewrite Hrender, Hfmt.
Qed.

Lemma colored_line_not_plain lg level formattedMsg :
  colored_line lg level formattedMsg ≠ plain_line level formattedMsg.
Proof.
  intros H. apply (f_equal String.length) in H.
  unfold colored_line, plain_line in H.
  rewrite !length_append in H. cbn in H. lia.
Qed.

(** ** Filtering (C1) *)

(** No statement of [log] reads [log_level_]. *)
Lemma log_set_log_level p T lg level file line msg w :
  log p (set_log_level T lg) level file line msg w
  = log p lg level file line msg w.
Proof. reflexivity. Qed.

(** C1: the instance threshold does not filter.  Whatever level
    [set_log_level] stores, [log] behaves the same; and a logger configured
    with threshold error, in a build with the default floor, writes a
    debug record to the error stream although debug ranks below error. *)
Theorem log_ignores_instance_threshold :
  (∀ p T lg level file line msg w,
     log p (set_log_level T lg) level file line msg w
     = log p lg level file line msg w)
  ∧ (let '(lg, w) := Logger_new error_threshold_config fresh_world in
     rank debug < rank (log_level_ lg)
     ∧ rank debug < rank (log_level_ (set_log_level fatal lg))
     ∧ cerr_bytes (log default_process lg debug "" 0 (CString "hi") w).1
       = "[DEBUG] hi" +:+ endl
     ∧ cerr_bytes
         (log default_process (set_log_level fatal lg) debug "" 0
            (CString "hi") w).1
       = "[DEBUG] hi" +:+ endl).
Proof.
  split; [intros; apply log_set_log_level |].
  cbn. repeat split; first [lia | vm_compute; reflexivity].
Qed.

(** ** Destinations (C2) *)

(** C2: where an accepted record goes, mode by mode.  In Console mode, and
    in File or Both mode without an open file, one line goes to the error
    stream and no file changes.  In File mode with an open file one plain
    line is appended to the file and the error stream receives nothing.  In
    Both mode with an open file the plain line is appended to the file
    twice and the error stream receives nothing. *)
Theorem log_destinations p lg level file line msg text formattedMsg w :
  LOG_LEVEL p ≤ rank level →
  render msg = Ok text →
  formatter_ lg level file line text = Ok formattedMsg →
  let w' := (log p lg level file line msg w).1 in
  match output_mode_ lg, opened (log_file_ lg) with
  | File, Some path =>
      cerr_bytes w' = cerr_bytes w
      ∧ (failbit (log_file_ lg) = false →
         file_content w' path
         = file_content w path +:+ plain_line level formattedMsg)
  | Both, Some path =>
      cerr_bytes w' = cerr_bytes w
      ∧ (failbit (log_file_ lg) = false →
         file_content w' path
         = file_content w path +:+ plain_line level formattedMsg
             +:+ plain_line level formattedMsg)
  | _, _ =>
      cerr_bytes w'
      = cerr_bytes w +:+ console_line p lg w level formattedMsg
      ∧ files w' = files w
  end.
Proof.
  intros Hfloor Hrender Hfmt w'. subst w'.
  rewrite (log_accepted _ _ _ _ _ _ _ _ _ Hfloor Hrender Hfmt).
  cbn [fst]. rewrite write_record_spec. unfold is_open.
  destruct (output_mode_ lg), (opened (log_file_ lg)) as [path|] eqn:Hopen;
    try (split; reflexivity).
  - split; [apply cerr_bytes_ofstream_put |].
    intros Hgood. now apply file_content_put.
  - split; [now rewrite !cerr_bytes_ofstream_put |].
    intros Hgood. rewrite !(file_content_put _ _ _ _ Hopen Hgood).
    apply append_assoc.
Qed.

(** In Both mode with the file open, one call leaves the error stream
    empty and the file with the same line twice. *)
Lemma log_destinations_both_witness :
  let '(lg, w) := Logger_new both_config fresh_world in
  let w' := (log default_process lg info "" 0 (CString "hi") w).1 in
  cerr_bytes w' = ""
  ∧ file_content w' "t.log" = "[INFO] hi" +:+ endl +:+ "[INFO] hi" +:+ endl.
Proof.
  pose proof (log_destinations default_process
                (Logger_new both_config fresh_world).1
                info "" 0 (CString "hi") "hi" "hi"
                (Logger_new both_config fresh_world).2) as H.
  cbn in H.
  destruct H as [Hcerr Hfile]; [unfold LOG_LEVEL_DEBUG; lia | reflexivity.. |].
  cbn. split; [exact Hcerr |].
  rewrite (Hfile eq_refl). vm_compute. reflexivity.
Defined.

(** ** Colour decoration (C6) *)

(** C6: for an accepted record that goes to the error stream, the line
    written there is the coloured line exactly when the error stream is a
    terminal and the global colour flag is on, and the plain line exactly
    when not; what is appended to the log file consists of plain lines
    only, none in Console mode, one in File mode, two in Both mode. *)
Theorem console_decoration_iff p lg level file line msg text formattedMsg w :
  LOG_LEVEL p ≤ rank level →
  render msg = Ok text →
  formatter_ lg level file line text = Ok formattedMsg →
  let w' := (log p lg level file line msg w).1 in
  (getLogStream lg = std_cerr →
     (cerr_bytes w' = cerr_bytes w +:+ colored_line lg level formattedMsg
      ↔ is_stderr_terminal_ (terminal p) && is_global_colored w = true)
     ∧ (cerr_bytes w' = cerr_bytes w +:+ plain_line level formattedMsg
        ↔ is_stderr_terminal_ (terminal p) && is_global_colored w = false))
  ∧ (∀ path,
       opened (log_file_ lg) = Some path → failbit (log_file_ lg) = false →
       file_content w' path
       = file_content w path +:+
         match output_mode_ lg with
         | Console => ""
         | File => plain_line level formattedMsg
         | Both => plain_line level formattedMsg
                     +:+ plain_line level formattedMsg
         end).
Proof.
  intros Hfloor Hrender Hfmt w'. subst w'.
  rewrite (log_accepted _ _ _ _ _ _ _ _ _ Hfloor Hrender Hfmt).
  cbn [fst]. rewrite write_record_spec. split.
  - unfold getLogStream, is_open. intros Hstream.
    assert (Hw : (match output_mode_ lg, opened (log_file_ lg) with
                  | File, Some _ | Both, Some _ => False
                  | _, _ => True
                  end)).
    { destruct (output_mode_ lg), (opened (log_file_ lg));
        first [exact I | discriminate Hstream]. }
    assert (Hline : cerr_bytes
              (match output_mode_ lg,
                     match opened (log_file_ lg) with
                     | Some _ => true | None => false
                     end with
               | File, true =>
                   ofstream_put (log_file_ lg) (plain_line level formattedMsg) w
               | Both, true =>
                   ofstream_put (log_file_ lg) (plain_line level formattedMsg)
                     (ofstream_put (log_file_ lg)
                        (plain_line level formattedMsg) w)
               | _, _ => cerr_put (console_line p lg w level formattedMsg) w
               end)
            = cerr_bytes w +:+ console_line p lg w level formattedMsg).
    { destruct (output_mode_ lg), (opened (log_file_ lg));
        first [reflexivity | destruct Hw]. }
    rewrite Hline. unfold console_line, check_color. cbn [is_terminal].
    rewrite (andb_comm (is_global_colored w)).
    destruct (is_stderr_terminal_ (terminal p) && is_global_colored w);
      (split; split; intros H; try reflexivity; try discriminate H;
       apply (inj (String.app (cerr_bytes w))) in H;
       exfalso; first [ now apply colored_line_not_plain in H
                      | symmetry in H; now apply colored_line_not_plain in H ]).
  - intros path Hopen Hgood. unfold is_open. rewrite Hopen.
    destruct (output_mode_ lg).
    + unfold file_content. cbn. now rewrite append_nil_r.
    + now apply file_content_put.
    + rewrite !(file_content_put _ _ _ _ Hopen Hgood). apply append_assoc.
Qed.

(** On a terminal with the flag on, a warning is written with the colour
    of its level around the level name. *)
Lemma console_decoration_witness :
  let '(lg, w) := Logger_new console_config fresh_world in
  cerr_bytes (log tty_process lg warn "" 0 (CString "hi") w).1
  = "[" +:+ String ESC "[33m" +:+ "WARNING" +:+ RESET +:+ "] hi" +:+ endl.
Proof.
  pose proof (console_decoration_iff tty_process
                (Logger_new console_config fresh_world).1
                warn "" 0 (CString "hi") "hi" "hi"
                (Logger_new console_config fresh_world).2) as H.
  cbn in H.
  destruct H as [Hcerr _]; [unfold LOG_LEVEL_DEBUG; lia | reflexivity.. |].
  destruct (Hcerr eq_refl) as [[_ Hcol] _].
  cbn. rewrite (Hcol eq_refl). vm_compute. reflexivity.
Defined.

(** ** Rendering (C10) *)

Lemma stream_items_chars (cs : list ascii) (oss : string) :
  stream_items (ItChar <$> cs) oss = Ok (oss +:+ String.string_of_list_ascii cs).
Proof.
  revert oss. induction cs as [|c cs IH]; intros oss; cbn.
  - now rewrite append_nil_r.
  - rewrite IH. f_equal. now rewrite append_assoc.
Qed.

Lemma stream_items_strings (parts : list string) (oss : string) :
  stream_items (ItString <$> parts) oss = Ok (oss +:+ String.concat "" parts).
Proof.
  revert oss. induction parts as [|s parts IH]; intros oss.
  - cbn. now rewrite append_nil_r.
  - cbn [fmap list_fmap stream_items print_item]. rewrite IH. f_equal.
    rewrite append_assoc. f_equal.
    destruct parts as [|s' parts]; cbn; [now rewrite append_nil_r | reflexivity].
Qed.

(** [render] takes the streaming branch exactly for the iterable types. *)
Lemma render_Iterable (m : Message) (items : list Item) :
  begin_end m = Some items → render m = stream_items items "".
Proof. destruct m; cbn; intros H; now inversion H. Qed.

Lemma render_StdString (s : string) : render (StdString s) = Ok s.
Proof.
  cbn. rewrite stream_items_chars, append_nil_l.
  now rewrite String.string_of_list_ascii_of_string.
Qed.

(** [log] sees a message only through [render]. *)
Lemma log_render_eq p lg level file line m1 m2 w :
  render m1 = render m2 →
  log p lg level file line m1 w = log p lg level file line m2 w.
Proof. unfold log. now intros ->. Qed.

(** C10: a [std::string] message is iterable, its elements being its
    characters; streaming them one by one gives the string back, so the
    formatter is applied to the unchanged text; and a container of
    characters, or of strings, that spells the same text is logged
    identically. *)
Theorem render_string_unchanged (s : string) :
  Iterable (StdString s) = true
  ∧ begin_end (StdString s) = Some (ItChar <$> String.list_ascii_of_string s)
  ∧ render (StdString s)
    = stream_items (ItChar <$> String.list_ascii_of_string s) ""
  ∧ render (StdString s) = Ok s
  ∧ (∀ p lg level file line w,
       log p lg level file line (StdString s) w =
       if rank level <? LOG_LEVEL p then (w, Returned)
       else match formatter_ lg level file line s with
            | Ok formattedMsg =>
                (write_record p lg level formattedMsg w, Returned)
            | Throw t => log_catch t w
            end)
  ∧ (∀ p lg level file line w,
       log p lg level file line
         (Container (ItChar <$> String.list_ascii_of_string s)) w
       = log p lg level file line (StdString s) w)
  ∧ (∀ parts p lg level file line w,
       log p lg level file line (Container (ItString <$> parts)) w
       = log p lg level file line (StdString (String.concat "" parts)) w).
Proof.
  split; [reflexivity |]. split; [reflexivity |]. split; [reflexivity |].
  split; [apply render_StdString |].
  split; [| split].
  - intros. unfold log. now rewrite render_StdString.
  - intros. apply log_render_eq. reflexivity.
  - intros. apply log_render_eq. rewrite render_StdString. cbn [render].
    now rewrite stream_items_strings, append_nil_l.
Qed.

(** ** Error handling (C4, C5, C7) *)

(** With line number zero the default formatter returns the message alone,
    whatever the file argument. *)
Lemma default_formatter_line_zero lvl name text :
  default_formatter lvl name 0 text = Ok text.
Proof.
  unfold default_formatter.
  replace (0 <? 0) with false by reflexivity.
  now rewrite andb_false_r, append_nil_l.
Qed.

(** C4: with the default formatter the context passed to [handle_error]
    has no effect at all.  The error-level call formats the exception's
    message with the context as file name and zero as line number, which
    the default formatter leaves out; two calls that differ only in the
    context do the same. *)
Theorem handle_error_drops_context p lg e ctx ctx' w :
  formatter_ lg = default_formatter →
  (Logger_error p lg ctx 0 (CString (what e)) w =
   if rank error <? LOG_LEVEL p then (w, Returned)
   else (write_record p lg error (what e) w, Returned))
  ∧ handle_error p lg e ctx w = handle_error p lg e ctx' w.
Proof.
  intros Hfmt.
  assert (H : ∀ c, Logger_error p lg c 0 (CString (what e)) w =
                   if rank error <? LOG_LEVEL p then (w, Returned)
                   else (write_record p lg error (what e) w, Returned)).
  { intros c. unfold Logger_error, log. cbn [render].
    now rewrite Hfmt, default_formatter_line_zero. }
  split; [apply H |].
  unfold handle_error. now rewrite !H.
Qed.

(** [handle_error(runtime_error("boom"), "ctx")] on a default logger: the
    error stream receives the error-level line, the stack trace header and
    the default handler's line; "boom" occurs in it, "ctx" does not. *)
Lemma handle_error_drops_context_witness :
  let '(lg, w) := Logger_new default_config fresh_world in
  let out := cerr_bytes (handle_error default_process lg
                           (runtime_error "boom") "ctx" w).1 in
  formatter_ lg = default_formatter
  ∧ handle_error default_process lg (runtime_error "boom") "ctx" w
    = handle_error default_process lg (runtime_error "boom") "" w
  ∧ out = "[ERROR] boom" +:+ endl +:+ "Stack trace:" +:+ endl
            +:+ "Unhandled exception: boom" +:+ endl
  ∧ contains "boom" out = true
  ∧ contains "ctx" out = false.
Proof.
  cbn. split; [reflexivity |].
  split.
  - apply (handle_error_drops_context default_process
             (Logger_new default_config fresh_world).1
             (runtime_error "boom") "ctx" ""
             (Logger_new default_config fresh_world).2).
    reflexivity.
  - vm_compute. repeat split.
Defined.

(** C5, as stated, fails: when the formatter throws something that is not
    a [std::exception], [log] writes no diagnostic and the exception
    reaches the caller. *)
Lemma log_propagates_foreign_exception :
  let '(lg, w) := Logger_new (config_with foreign_throwing_formatter) fresh_world in
  log default_process lg info "" 0 (CString "hi") w = (w, Propagates ThrowOther)
  ∧ (log default_process lg info "" 0 (CString "hi") w).2 ≠ Returned.
Proof. cbn. split; [reflexivity | discriminate]. Qed.

(** C5, amended: [log] returns normally whenever neither the rendering of
    the message nor the formatter throws an exception of a type outside
    [std::exception]; when one of them throws a [std::exception], the only
    effect of the call is the line "Logging exception: <what>" on the
    error stream; an exception of another type thrown by an accepted
    record leaves the world unchanged and propagates. *)
Theorem log_exception_boundary p lg level file line msg w :
  (render msg ≠ Throw ThrowOther →
   (∀ text, render msg = Ok text →
            formatter_ lg level file line text ≠ Throw ThrowOther) →
   (log p lg level file line msg w).2 = Returned)
  ∧ (∀ e, LOG_LEVEL p ≤ rank level →
          (render msg = Throw (ThrowStd e)
           ∨ ∃ text, render msg = Ok text
                     ∧ formatter_ lg level file line text = Throw (ThrowStd e)) →
          log p lg level file line msg w
          = (cerr_put ("Logging exception: " +:+ what e +:+ endl) w, Returned))
  ∧ (LOG_LEVEL p ≤ rank level →
     (render msg = Throw ThrowOther
      ∨ ∃ text, render msg = Ok text
                ∧ formatter_ lg level file line text = Throw ThrowOther) →
     log p lg level file line msg w = (w, Propagates ThrowOther)).
Proof.
  split; [| split].
  - intros Hrender Hfmt. unfold log.
    destruct (rank level <? LOG_LEVEL p); [reflexivity |].
    destruct (render msg) as [text | [e |]] eqn:Er; [| reflexivity | congruence].
    specialize (Hfmt text eq_refl).
    now destruct (formatter_ lg level file line text) as [fm | [e |]].
  - intros e Hfloor Hthrow. unfold log.
    destruct (rank level <? LOG_LEVEL p) eqn:E; [apply Z.ltb_lt in E; lia |].
    destruct Hthrow as [-> | (text & -> & ->)]; cbn [log_catch];
      now rewrite !cerr_put_put.
  - intros Hfloor Hthrow. unfold log.
    destruct (rank level <? LOG_LEVEL p) eqn:E; [apply Z.ltb_lt in E; lia |].
    now destruct Hthrow as [-> | (text & -> & ->)].
Qed.

(** A formatter that throws [std::runtime_error("bad format")]: the call
    returns and the error stream holds the diagnostic line. *)
Lemma log_exception_boundary_witness :
  let '(lg, w) := Logger_new (config_with std_throwing_formatter) fresh_world in
  log default_process lg info "" 0 (CString "hi") w
  = (cerr_put ("Logging exception: bad format" +:+ endl) w, Returned).
Proof.
  cbn.
  apply (proj1 (proj2 (log_exception_boundary default_process
           (Logger_new (config_with std_throwing_formatter) fresh_world).1
           info "" 0 (CString "hi")
           (Logger_new (config_with std_throwing_formatter) fresh_world).2))
           (runtime_error "bad format")).
  - unfold default_process, LOG_LEVEL_DEBUG; cbn; lia.
  - right. exists "hi". split; reflexivity.
Defined.

Lemma Logger_new_handlers config w :
  default_handler_ (Logger_new config w).1 = stock_default_handler
  ∧ handlers_ (Logger_new config w).1 = ∅.
Proof.
  unfold Logger_new.
  destruct (negb (String.eqb (log_file_name config) "")); [| now split].
  now destruct (ofstream_open _ _ _).
Qed.

Lemma stock_default_handler_spec e w :
  stock_default_handler e w
  = (cerr_put ("Unhandled exception: " +:+ what e +:+ endl) w, Returned).
Proof. unfold stock_default_handler. now rewrite !cerr_put_put. Qed.

(** C7, as stated, fails: with a handler registered for the exception's
    type, a formatter that throws something outside [std::exception] on
    the error-level record makes [handle_error] end before the lookup;
    neither the registered handler nor the default handler is called and
    nothing is written. *)
Lemma handle_error_skips_registered_handler :
  handlers_ (register_error_handler "St13runtime_error" custom_error_handler
               (Logger_new (config_with foreign_throwing_formatter)
                  fresh_world).1)
    !! type_name (runtime_error "boom") = Some custom_error_handler
  ∧ handle_error default_process
      (register_error_handler "St13runtime_error" custom_error_handler
         (Logger_new (config_with foreign_throwing_formatter) fresh_world).1)
      (runtime_error "boom") "ctx" fresh_world
    = (fresh_world, Propagates ThrowOther)
  ∧ (custom_error_handler (runtime_error "boom") fresh_world).2 = Returned
  ∧ cerr_bytes (custom_error_handler (runtime_error "boom") fresh_world).1
    ≠ cerr_bytes fresh_world.
Proof.
  split; [apply lookup_insert_eq |].
  split; [reflexivity |]. split; [reflexivity |].
  vm_compute. discriminate.
Qed.

(** C7, amended: when the error-level logging call of [handle_error]
    returns, the handler registered under [typeid(e).name()] is applied to
    [e] and its outcome is the outcome of [handle_error], the default
    handler playing no part; of two handlers registered under that key the
    later one is applied; a registration under another key leaves the
    handler of this key in place; without a handler under that key, also
    when one is registered under another key, the default handler is
    applied; and the default handler a constructor installs writes
    "Unhandled exception: <what>" to the error stream.  When the logging
    call lets an exception escape, [handle_error] ends with that exception
    and calls no handler. *)
Theorem handle_error_dispatch p lg e ctx w :
  (∀ w1,
     Logger_error p lg ctx 0 (CString (what e)) w = (w1, Returned) →
     let w2 := log_stack_trace p w1 in
     (∀ h, handlers_ lg !! type_name e = Some h →
           handle_error p lg e ctx w = h e w2)
     ∧ (∀ h1 h2,
          handle_error p
            (register_error_handler (type_name e) h2
               (register_error_handler (type_name e) h1 lg)) e ctx w
          = h2 e w2)
     ∧ (∀ k h h0, k ≠ type_name e → handlers_ lg !! type_name e = Some h0 →
                  handle_error p (register_error_handler k h lg) e ctx w
                  = h0 e w2)
     ∧ (handlers_ lg !! type_name e = None →
        handle_error p lg e ctx w = default_handler_ lg e w2)
     ∧ (∀ k h, k ≠ type_name e → handlers_ lg !! type_name e = None →
               handle_error p (register_error_handler k h lg) e ctx w
               = default_handler_ lg e w2)
     ∧ (∀ config w0,
          default_handler_ (Logger_new config w0).1 e w2
          = (cerr_put ("Unhandled exception: " +:+ what e +:+ endl) w2,
             Returned)))
  ∧ (∀ w1 t,
       Logger_error p lg ctx 0 (CString (what e)) w = (w1, Propagates t) →
       handle_error p lg e ctx w = (w1, Propagates t)).
Proof.
  split.
  - intros w1 Hlog w2.
    assert (Hreg : ∀ lg', formatter_ lg' = formatter_ lg →
                          output_mode_ lg' = output_mode_ lg →
                          log_file_ lg' = log_file_ lg →
                          log_level_colors_ lg' = log_level_colors_ lg →
              Logger_error p lg' ctx 0 (CString (what e)) w = (w1, Returned)).
    { intros lg' Hf Hm Hl Hc. rewrite <- Hlog.
      unfold Logger_error, log, write_record, getLogStream, applyLogLevelColor,
        level_color. now rewrite Hf, Hm, Hl, Hc. }
    split; [| split; [| split; [| split; [| split]]]].
    + intros h Hh. unfold handle_error. now rewrite Hlog, Hh.
    + intros h1 h2. unfold handle_error. rewrite Hreg by reflexivity.
      cbn [handlers_ register_error_handler]. now rewrite lookup_insert_eq.
    + intros k h h0 Hk Hsome. unfold handle_error. rewrite Hreg by reflexivity.
      cbn [handlers_ register_error_handler].
      rewrite lookup_insert_ne by exact Hk. now rewrite Hsome.
    + intros Hnone. unfold handle_error. now rewrite Hlog, Hnone.
    + intros k h Hk Hnone. unfold handle_error. rewrite Hreg by reflexivity.
      cbn [handlers_ register_error_handler default_handler_].
      rewrite lookup_insert_ne by exact Hk. now rewrite Hnone.
    + intros config w0.
      rewrite (proj1 (Logger_new_handlers config w0)).
      apply stock_default_handler_spec.
  - intros w1 t Hlog. unfold handle_error. now rewrite Hlog.
Qed.

(** With [custom_error_handler] registered for [std::runtime_error], also
    after a handler for another type is registered, the custom line is
    written and the default handler's line is not. *)
Lemma handle_error_dispatch_witness :
  let lg0 := (Logger_new default_config fresh_world).1 in
  let lg := register_error_handler "St13runtime_error" custom_error_handler lg0 in
  let w1 := (Logger_error default_process lg "ctx" 0 (CString "boom")
               fresh_world).1 in
  handle_error default_process lg (runtime_error "boom") "ctx" fresh_world
  = custom_error_handler (runtime_error "boom")
      (log_stack_trace default_process w1)
  ∧ handle_error default_process
      (register_error_handler "St11logic_error" stock_default_handler lg)
      (runtime_error "boom") "ctx" fresh_world
    = custom_error_handler (runtime_error "boom")
        (log_stack_trace default_process w1)
  ∧ contains "Unhandled exception"
      (cerr_bytes (handle_error default_process lg
                     (runtime_error "boom") "ctx" fresh_world).1) = false.
Proof.
  intros lg0 lg w1.
  destruct (proj1 (handle_error_dispatch default_process lg
                     (runtime_error "boom") "ctx" fresh_world) w1 eq_refl)
    as (Hown & _ & Hother & _).
  split; [apply (Hown custom_error_handler); apply lookup_insert_eq |].
  split.
  - apply (Hother "St11logic_error" stock_default_handler custom_error_handler);
      [discriminate | apply lookup_insert_eq].
  - vm_compute. reflexivity.
Defined.

(** ** Reopening the log file (C8) *)

Lemma files_log_catch t w : files (log_catch t w).1 = files w.
Proof. now destruct t. Qed.

(** Once the file stream has its failure bit set, [log] changes no file. *)
Lemma log_failed_stream_keeps_files p lg level file line msg w :
  failbit (log_file_ lg) = true →
  files (log p lg level file line msg w).1 = files w.
Proof.
  intros Hfail. unfold log.
  destruct (rank level <? LOG_LEVEL p); [reflexivity |].
  destruct (render msg) as [text | t]; [| apply files_log_catch].
  destruct (formatter_ lg level file line text) as [fm | t];
    [| apply files_log_catch].
  cbn [fst]. rewrite write_record_spec.
  destruct (output_mode_ lg), (is_open (log_file_ lg));
    rewrite ?(ofstream_put_failed _ _ _ Hfail); reflexivity.
Qed.

(** C8: [set_log_file] on a logger whose file stream is open does not
    switch files.  The stream stays attached to the file it had, no file is
    created or changed by the call, and the stream's failure bit is set;
    from then on no call of [log] changes any file, and in File mode an
    accepted record is written nowhere at all. *)
Theorem set_log_file_on_open_stream lg filename w :
  is_open (log_file_ lg) = true →
  let lg' := (set_log_file filename lg w).1 in
  (set_log_file filename lg w).2 = w
  ∧ opened (log_file_ lg') = opened (log_file_ lg)
  ∧ failbit (log_file_ lg') = true
  ∧ (∀ p level file line msg w0,
       files (log p lg' level file line msg w0).1 = files w0)
  ∧ (∀ p level file line msg text formattedMsg w0,
       output_mode_ lg = File →
       render msg = Ok text →
       formatter_ lg level file line text = Ok formattedMsg →
       log p lg' level file line msg w0 = (w0, Returned)).
Proof.
  unfold is_open, set_log_file, ofstream_open.
  destruct (opened (log_file_ lg)) as [path|] eqn:Hopen; [| discriminate].
  intros _. cbn. repeat split.
  - intros. now apply log_failed_stream_keeps_files.
  - intros p level file line msg text fm w0 Hmode Hrender Hfmt. unfold log.
    destruct (rank level <? LOG_LEVEL p); [reflexivity |].
    rewrite Hrender. cbn [formatter_ with_log_file]. rewrite Hfmt.
    rewrite write_record_spec. cbn. now rewrite Hmode.
Qed.

(** A logger writing to "a.log" is told to write to "b.log": the record
    logged before the call is in "a.log"; the record logged after it is in
    neither file nor on the error stream, and "b.log" does not exist.  The
    same happens when the file named is "a.log" again. *)
Lemma set_log_file_on_open_stream_witness :
  let '(lg, w) := Logger_new file_config fresh_world in
  let w := (log default_process lg info "" 0 (CString "first") w).1 in
  let reopen_then_log (name : string) :=
    let '(lg', w') := set_log_file name lg w in
    (log default_process lg' info "" 0 (CString "second") w').1 in
  is_open (log_file_ lg) = true
  ∧ failbit (log_file_ (set_log_file "b.log" lg w).1) = true
  ∧ file_content (reopen_then_log "b.log") "a.log" = "[INFO] first" +:+ endl
  ∧ files (reopen_then_log "b.log") !! "b.log" = None
  ∧ cerr_bytes (reopen_then_log "b.log") = ""
  ∧ file_content (reopen_then_log "a.log") "a.log" = "[INFO] first" +:+ endl
  ∧ cerr_bytes (reopen_then_log "a.log") = "".
Proof.
  cbn. split; [reflexivity |]. split.
  - apply (set_log_file_on_open_stream
             (Logger_new file_config fresh_world).1 "b.log"
             (log default_process (Logger_new file_config fresh_world).1
                info "" 0 (CString "first")
                (Logger_new file_config fresh_world).2).1 eq_refl).
  - vm_compute. repeat split.
Defined.

(** ** The asynchronous logger (C3) *)

Lemma forward_returns p lg r w :
  throws_only_std (formatter_ lg) → (forward p lg r w).2 = Returned.
Proof.
  intros Hfmt. unfold forward, log.
  destruct (rank (level r) <? LOG_LEVEL p); [reflexivity |].
  rewrite render_StdString.
  destruct (formatter_ lg (level r) (file r) (line r) (msg r))
    as [fm | [e |]] eqn:E; [reflexivity.. |].
  now apply Hfmt in E.
Qed.

Lemma Logger_new_formatter config w :
  formatter_ (Logger_new config w).1 = formatter config.
Proof.
  unfold Logger_new.
  destruct (negb (String.eqb (log_file_name config) "")); [| reflexivity].
  now destruct (ofstream_open _ _ _).
Qed.

Arguments replay : simpl never.
Arguments forward : simpl never.

Lemma replay_snoc p lg rs r w :
  replay p lg (rs ++ [r]) w = (forward p lg r (replay p lg rs w)).1.
Proof. unfold replay. now rewrite foldl_snoc. Qed.

Lemma async_inv_init p config rs w :
  async_inv p (Logger_new config w).1 (Logger_new config w).2 rs
    (async_init config rs w).
Proof.
  unfold async_init. destruct (Logger_new config w) as [lg w0].
  repeat split; cbn; try discriminate. 
Qed.

Lemma async_inv_step p lg w0 rs s s' :
  throws_only_std (formatter_ lg) →
  async_inv p lg w0 rs s → step p s s' → async_inv p lg w0 rs s'.
Proof.
  intros Hfmt (Hlg & Hrs & Hw & Hterm & Hpc & Hexit) Hstep.
  unfold async_inv, queue, stopped in *.
  destruct Hstep; cbn in *.
  - destruct Hpc as [Hst Hwk].
    repeat split; try assumption; try (intros; contradiction).
    now rewrite <- Hrs, <- !app_assoc.
  - destruct Hpc as [Hst Hwk].
    repeat split; try assumption; try (intros; contradiction).
  - repeat split; tauto.
  - repeat split; try assumption; try discriminate.
    destruct pc; [split; [tauto | discriminate] | assumption |].
    destruct Hpc as [_ Hwk]; discriminate Hwk.
  - subst lg0. repeat split; try assumption; try discriminate.
    + now rewrite <- Hrs, <- !app_assoc.
    + rewrite replay_snoc, <- Hw. now rewrite H.
  - subst lg0. pose proof (forward_returns p lg r w Hfmt) as Hret.
    rewrite H in Hret. discriminate Hret.
  - repeat split; try assumption; try discriminate.
    destruct pc; [split; [reflexivity | discriminate] | discriminate |].
    destruct Hpc as [Hst _]; discriminate Hst.
  - repeat split; try assumption; try discriminate.
    destruct pc; [destruct Hpc as [Hst _]; discriminate Hst | reflexivity |].
    destruct Hpc as [_ Hwk]; discriminate Hwk.
Qed.

Lemma async_inv_reachable p config rs w s :
  throws_only_std (formatter config) →
  reachable p (async_init config rs w) s →
  async_inv p (Logger_new config w).1 (Logger_new config w).2 rs s.
Proof.
  intros Hfmt Hreach. induction Hreach as [| s s' _ IH Hstep].
  - apply async_inv_init.
  - eapply async_inv_step; [| exact IH | exact Hstep].
    now rewrite Logger_new_formatter.
Qed.

(** Every action uses up fuel, so no run is infinite. *)
Lemma step_fuel p s s' : step p s s' → (fuel s' < fuel s)%nat.
Proof.
  intros Hstep. unfold fuel, queue, stopped.
  destruct Hstep; cbn [producer worker async log_queue_ stop_thread_];
    rewrite ?length_app; cbn [length];
    try lia.
  - destruct wk, q, st; cbn; try lia; try contradiction.
  - destruct wk, q, st; cbn; try lia; try contradiction.
  - destruct (log_queue_ a) as [|r q], (stop_thread_ a); try lia.
    destruct H as [H | H]; [contradiction | discriminate].
Qed.

(** While the destructor has not returned, some thread can act. *)
Lemma async_progress p lg w0 rs s :
  async_inv p lg w0 rs s → producer s ≠ Destroyed → ∃ s', step p s s'.
Proof.
  intros (Hlg & Hrs & Hw & Hterm & Hpc & Hexit) Hlive.
  destruct s as [[lg' q st] wk pc w rcv].
  unfold queue, stopped in *; cbn in *.
  destruct wk.
  - destruct pc as [[|r rest] | |].
    + eexists. apply producer_stop; discriminate.
    + eexists. apply producer_log; discriminate.
    + eexists. apply worker_wake. right. exact Hpc.
    + contradiction.
  - destruct q as [|r q].
    + destruct st; eexists; [apply worker_exit | apply worker_loop].
    + destruct (forward p lg' r w) as [w' [|t]] eqn:E; eexists;
        [eapply worker_forward | eapply worker_crash]; exact E.
  - destruct pc as [l | |].
    + destruct Hpc as [_ Hwk]. contradiction.
    + eexists. apply producer_join.
    + contradiction.
  - contradiction.
Qed.

Lemma reach_first p s0 s1 s :
  step p s0 s1 → reachable p s1 s → reachable p s0 s.
Proof.
  intros Hstep Hreach. induction Hreach as [| s s' _ IH Hs].
  - eapply reach_step; [apply reach_start | exact Hstep].
  - eapply reach_step; [exact IH | exact Hs].
Qed.

(** From every state of a run the destructor's return can be reached. *)
Lemma async_run_completes p lg w0 rs :
  throws_only_std (formatter_ lg) →
  ∀ n s, (fuel s < n)%nat → async_inv p lg w0 rs s →
         ∃ s_end, reachable p s s_end ∧ producer s_end = Destroyed.
Proof.
  intros Hfmt n. induction n as [|n IH]; intros s Hn Hinv; [lia |].
  assert (Hcase : producer s = Destroyed ∨ producer s ≠ Destroyed)
    by (destruct (producer s); [right; discriminate.. | left; reflexivity]).
  destruct Hcase as [Hd | Hlive].
  - exists s. split; [apply reach_start | exact Hd].
  - destruct (async_progress p lg w0 rs s Hinv Hlive) as [s' Hstep].
    pose proof (step_fuel p s s' Hstep) as Hlt.
    destruct (IH s') as (s_end & Hreach & Hend);
      [lia | eapply async_inv_step; eassumption |].
    exists s_end. split; [eapply reach_first; eassumption | exact Hend].
Qed.

(** C3: for a single producer that submits the records [rs] in order and
    then destroys the logger, with a formatter that throws nothing outside
    [std::exception], every state of every run satisfies: the records
    forwarded to the wrapped logger, followed by those queued and those
    not yet submitted, are [rs] in order; the world is what those
    forwarded calls of [Logger::log] made of it, one after the other; the
    worker is never terminated; a worker that has returned has forwarded
    all of [rs] and left the queue empty; the destructor returns only
    after the worker has returned; until then some thread can always act;
    every action uses up fuel, so the run ends; and the state in which the
    destructor has returned can be reached from where the run stands. *)
Theorem async_fifo_drain p config rs w s :
  throws_only_std (formatter config) →
  reachable p (async_init config rs w) s →
  received s ++ queue s ++ pending_of (producer s) = rs
  ∧ world s
    = replay p (Logger_new config w).1 (received s) (Logger_new config w).2
  ∧ worker s ≠ Terminated
  ∧ (worker s = Exited → received s = rs ∧ queue s = [])
  ∧ (producer s = Destroyed → worker s = Exited)
  ∧ (producer s ≠ Destroyed → ∃ s', step p s s')
  ∧ (∀ s', step p s s' → (fuel s' < fuel s)%nat)
  ∧ (∃ s_end, reachable p s s_end ∧ producer s_end = Destroyed).
Proof.
  intros Hfmt Hreach.
  pose proof (async_inv_reachable p config rs w s Hfmt Hreach) as Hinv.
  pose proof Hinv as (Hlg & Hrs & Hw & Hterm & Hpc & Hexit).
  split; [exact Hrs |]. split; [exact Hw |]. split; [exact Hterm |].
  split; [| split; [| split; [| split]]].
  - intros Hwk. specialize (Hexit Hwk). split; [| exact Hexit].
    rewrite Hexit in Hrs.
    destruct (producer s); [destruct Hpc; contradiction | |];
      cbn in Hrs; now rewrite !app_nil_r in Hrs.
  - intros Hd. rewrite Hd in Hpc. tauto.
  - intros Hlive. eapply async_progress; eassumption.
  - intros s'. apply step_fuel.
  - eapply (async_run_completes p _ _ rs); [| apply Nat.lt_succ_diag_r | exact Hinv].
    now rewrite Logger_new_formatter.
Qed.

(** One run with two records: both are submitted before the worker wakes,
    the destructor sets the stop flag, the worker drains the queue and
    returns, and the error stream holds the two lines in order. *)
Lemma async_fifo_drain_witness :
  reachable default_process
    (async_init default_config two_records fresh_world) two_records_done
  ∧ received two_records_done = two_records
  ∧ queue two_records_done = []
  ∧ cerr_bytes (world two_records_done)
    = "[INFO] a.cpp:10 one" +:+ endl +:+ "[WARNING] a.cpp:20 two" +:+ endl.
Proof.
  assert (Hreach : reachable default_process
            (async_init default_config two_records fresh_world)
            two_records_done).
  { cbn.
    eapply reach_first; [apply producer_log; discriminate |].
    eapply reach_first; [apply producer_log; discriminate |].
    eapply reach_first; [apply producer_stop; discriminate |].
    eapply reach_first; [apply worker_wake; now right |].
    eapply reach_first; [eapply worker_forward; reflexivity |].
    eapply reach_first; [eapply worker_forward; reflexivity |].
    eapply reach_first; [apply worker_exit |].
    eapply reach_first; [apply producer_join |].
    apply reach_start. }
  split; [exact Hreach |].
  destruct (async_fifo_drain default_process default_config two_records
              fresh_world two_records_done) as (_ & _ & _ & Hdone & _);
    [intros lvl f l m; unfold default_config, default_formatter; cbn;
       discriminate
    | exact Hreach |].
  destruct (Hdone eq_refl) as [Hrcv Hq].
  split; [exact Hrcv |]. split; [exact Hq |].
  vm_compute. reflexivity.
Defined.

Lemma terminated_is_stuck p s s' : worker s = Terminated → ¬ step p s s'.
Proof.
  intros Hterm Hstep. destruct Hstep; cbn in Hterm;
    first [discriminate Hterm | contradiction].
Qed.

(** C3, as stated, fails: with a formatter that throws something outside
    [std::exception], a run of two records reaches a state in which the
    worker has been ended on the first record, the second record is still
    queued and has not been forwarded, and no thread can act any more: the
    destructor never returns and the record is lost. *)
Lemma async_drops_records_on_foreign_exception :
  reachable default_process
    (async_init (config_with foreign_throwing_formatter) two_records fresh_world)
    two_records_crashed
  ∧ worker two_records_crashed = Terminated
  ∧ queue two_records_crashed = two_records
  ∧ received two_records_crashed ≠ two_records
  ∧ producer two_records_crashed ≠ Destroyed
  ∧ (∀ s', ¬ step default_process two_records_crashed s').
Proof.
  split.
  - cbn.
    eapply reach_first; [apply producer_log; discriminate |].
    eapply reach_first; [apply producer_log; discriminate |].
    eapply reach_first; [apply producer_stop; discriminate |].
    eapply reach_first; [apply worker_wake; now right |].
    eapply reach_first; [eapply worker_crash; reflexivity |].
    apply reach_start.
  - split; [reflexivity |]. split; [reflexivity |].
    split; [discriminate |]. split; [discriminate |].
    intros s'. now apply terminated_is_stuck.
Qed.

(** * Further properties of the code *)

(** ** The default formatter *)

Lemma append_not_self (a b : string) : a ≠ "" → a +:+ b ≠ b.
Proof.
  intros Ha H. apply (f_equal String.length) in H.
  rewrite length_append in H. destruct a; [contradiction | cbn in H; lia].
Qed.

(** X1: the default formatter never throws.  It returns the message alone
    when the file name is empty or the line number is not positive, and
    only then; otherwise it returns "<file>:<line> <message>" with the
    line number in decimal. *)
Theorem default_formatter_prefix lvl file line msg :
  (file = "" ∨ line ≤ 0 → default_formatter lvl file line msg = Ok msg)
  ∧ (file ≠ "" ∧ 0 < line →
     default_formatter lvl file line msg
     = Ok (file +:+ ":" +:+ pretty line +:+ " " +:+ msg))
  ∧ (default_formatter lvl file line msg = Ok msg ↔ file = "" ∨ line ≤ 0).
Proof.
  assert (Hplain : file = "" ∨ line ≤ 0 →
                   default_formatter lvl file line msg = Ok msg).
  { intros H. unfold default_formatter.
    destruct H as [-> | H]; [reflexivity |].
    replace (0 <? line) with false by (symmetry; apply Z.ltb_ge; lia).
    now rewrite andb_false_r. }
  assert (Hfull : file ≠ "" ∧ 0 < line →
                  default_formatter lvl file line msg
                  = Ok (file +:+ ":" +:+ pretty line +:+ " " +:+ msg)).
  { intros [Hf Hl]. unfold default_formatter.
    apply String.eqb_neq in Hf. rewrite Hf.
    apply Z.ltb_lt in Hl. rewrite Hl. cbn [negb andb].
    now rewrite append_nil_l, !append_assoc. }
  split; [exact Hplain |]. split; [exact Hfull |].
  split; [| exact Hplain].
  intros H.
  destruct (String.eqb_spec file "") as [Hf | Hf]; [now left |].
  destruct (Z.le_gt_cases line 0) as [Hl | Hl]; [now right |].
  rewrite (Hfull (conj Hf Hl)) in H. injection H as H.
  rewrite <- !append_assoc in H.
  apply append_not_self in H; [contradiction |].
  destruct file; [contradiction | discriminate].
Qed.

(** ** What [log] can and cannot change *)

Lemma cerr_put_nil (w : World) : cerr_put "" w = w.
Proof. destruct w. unfold cerr_put; cbn. now rewrite append_nil_r. Qed.

(** Whatever its arguments, [log] either appends some text to the error
    stream or inserts some text into the logger's file stream. *)
Lemma log_effect p lg level file line msg w :
  (∃ s, (log p lg level file line msg w).1 = cerr_put s w)
  ∨ (∃ s, (log p lg level file line msg w).1 = ofstream_put (log_file_ lg) s w).
Proof.
  assert (Hcatch : ∀ t, ∃ s, (log_catch t w).1 = cerr_put s w).
  { intros [e |]; cbn.
    - eexists. now rewrite !cerr_put_put.
    - exists "". now rewrite cerr_put_nil. }
  unfold log.
  destruct (rank level <? LOG_LEVEL p).
  { left. exists "". now rewrite cerr_put_nil. }
  destruct (render msg) as [text | t]; [| left; apply Hcatch].
  destruct (formatter_ lg level file line text) as [fm | t];
    [| left; apply Hcatch].
  cbn [fst]. rewrite write_record_spec.
  destruct (output_mode_ lg), (is_open (log_file_ lg));
    first [ left; eexists; reflexivity
          | right; eexists; first [reflexivity | apply ofstream_put_put] ].
Qed.

Lemma ofstream_put_content (f : ofstream) (s path : string) (w : World) :
  ∃ sfx, file_content (ofstream_put f s w) path = file_content w path +:+ sfx.
Proof.
  unfold ofstream_put, file_content.
  destruct (opened f) as [path'|]; [| exists ""; now rewrite append_nil_r].
  destruct (failbit f); [exists ""; now rewrite append_nil_r |].
  cbn. destruct (decide (path' = path)) as [-> | Hne].
  - rewrite lookup_insert_eq. now exists s.
  - rewrite lookup_insert_ne by exact Hne. exists "". now rewrite append_nil_r.
Qed.

Lemma ofstream_put_other (f : ofstream) (s path : string) (w : World) :
  opened f ≠ Some path → files (ofstream_put f s w) !! path = files w !! path.
Proof.
  unfold ofstream_put. intros Hne.
  destruct (opened f) as [path'|]; [| reflexivity].
  destruct (failbit f); [reflexivity |]. cbn.
  apply lookup_insert_ne. congruence.
Qed.

Lemma ofstream_put_keeps (f : ofstream) (s path : string) (w : World) :
  is_Some (files w !! path) → is_Some (files (ofstream_put f s w) !! path).
Proof.
  unfold ofstream_put. intros Hsome.
  destruct (opened f) as [path'|]; [| exact Hsome].
  destruct (failbit f); [exact Hsome |]. cbn.
  destruct (decide (path' = path)) as [-> | Hne].
  - rewrite lookup_insert_eq. eauto.
  - now rewrite lookup_insert_ne.
Qed.

Lemma ofstream_put_frame (f : ofstream) (s : string) (w : World) :
  cout_bytes (ofstream_put f s w) = cout_bytes w
  ∧ cerr_bytes (ofstream_put f s w) = cerr_bytes w
  ∧ is_global_colored (ofstream_put f s w) = is_global_colored w
  ∧ openable (ofstream_put f s w) = openable w.
Proof. unfold ofstream_put. now destruct (opened f), (failbit f). Qed.

(** X2: [log] only ever appends.  For every logger, level, message and
    formatter, also when an exception is caught or escapes, the call
    leaves standard output, the global colour flag and the set of openable
    paths as they were, extends the bytes of the error stream, extends the
    content of every file, and removes no file. *)
Theorem log_append_only p lg level file line msg w :
  let w' := (log p lg level file line msg w).1 in
  cout_bytes w' = cout_bytes w
  ∧ is_global_colored w' = is_global_colored w
  ∧ openable w' = openable w
  ∧ (∃ sfx, cerr_bytes w' = cerr_bytes w +:+ sfx)
  ∧ (∀ path, ∃ sfx, file_content w' path = file_content w path +:+ sfx)
  ∧ (∀ path, is_Some (files w !! path) → is_Some (files w' !! path)).
Proof.
  cbn zeta.
  destruct (log_effect p lg level file line msg w) as [[s ->] | [s ->]].
  - repeat split; try reflexivity.
    + now exists s.
    + intros path. exists "". now rewrite append_nil_r.
    + auto.
  - destruct (ofstream_put_frame (log_file_ lg) s w) as (Ho & He & Hg & Hp).
    split; [exact Ho |]. split; [exact Hg |]. split; [exact Hp |].
    split; [exists ""; now rewrite He, append_nil_r |].
    split; [intros path; apply ofstream_put_content |].
    intros path. apply ofstream_put_keeps.
Qed.

(** X3: the only file [log] can touch is the one its own stream has open:
    every other path keeps its entry, and when the stream is closed, or
    has its failure bit set, no file changes at all. *)
Theorem log_touches_own_file_only p lg level file line msg w :
  let w' := (log p lg level file line msg w).1 in
  (∀ path, opened (log_file_ lg) ≠ Some path →
           files w' !! path = files w !! path)
  ∧ (opened (log_file_ lg) = None ∨ failbit (log_file_ lg) = true →
     files w' = files w).
Proof.
  cbn zeta.
  destruct (log_effect p lg level file line msg w) as [[s ->] | [s ->]].
  - split; reflexivity.
  - split; [intros path; apply ofstream_put_other |].
    unfold ofstream_put. intros [-> | Hfail]; [reflexivity |].
    rewrite Hfail. now destruct (opened (log_file_ lg)).
Qed.

(** A logger writing to "a.log" next to an unrelated file "b.log": after a
    record is logged, "b.log" is as it was. *)
Lemma log_touches_own_file_only_witness :
  let lg := (Logger_new file_config fresh_world).1 in
  let w := set_files (<["b.log" := "kept"]>
                        (files (Logger_new file_config fresh_world).2))
             (Logger_new file_config fresh_world).2 in
  opened (log_file_ lg) ≠ Some "b.log"
  ∧ files (log default_process lg info "" 0 (CString "hi") w).1 !! "b.log"
    = Some "kept".
Proof.
  intros lg w. split; [discriminate |].
  refine (eq_trans
            (proj1 (log_touches_own_file_only default_process lg info "" 0
                      (CString "hi") w) "b.log" _) _);
    [discriminate | vm_compute; reflexivity].
Defined.

(** ** A sequence of calls in File mode *)

Lemma log_file_mode_step p lg c path formattedMsg w :
  output_mode_ lg = File → opened (log_file_ lg) = Some path →
  formatted lg c = Some formattedMsg →
  log p lg (c_level c) (c_file c) (c_line c) (c_msg c) w
  = (if rank (c_level c) <? LOG_LEVEL p then w
     else ofstream_put (log_file_ lg) (plain_line (c_level c) formattedMsg) w,
     Returned).
Proof.
  intros Hmode Hopen Hfmt. unfold formatted in Hfmt. unfold log.
  destruct (rank (c_level c) <? LOG_LEVEL p); [reflexivity |].
  destruct (render (c_msg c)) as [text |]; [| discriminate].
  destruct (formatter_ lg (c_level c) (c_file c) (c_line c) text) as [fm |];
    [| discriminate].
  injection Hfmt as ->. rewrite write_record_spec.
  unfold is_open. now rewrite Hmode, Hopen.
Qed.

(** X4: in File mode with the file open and its stream good, a sequence of
    calls whose messages render and format without throwing returns
    normally, writes nothing to the error stream, and appends to the file
    exactly the plain lines of the calls that pass the floor, in call
    order, after the content the file had. *)
Theorem log_all_file_mode p lg calls path w :
  output_mode_ lg = File →
  opened (log_file_ lg) = Some path →
  failbit (log_file_ lg) = false →
  Forall (fun c => is_Some (formatted lg c)) calls →
  (log_all p lg calls w).2 = Returned
  ∧ cerr_bytes (log_all p lg calls w).1 = cerr_bytes w
  ∧ file_content (log_all p lg calls w).1 path
    = file_content w path +:+ file_lines p lg calls.
Proof.
  intros Hmode Hopen Hgood Hall. revert w.
  induction Hall as [| c calls [fm Hfm] _ IH]; intros w.
  - cbn. now rewrite append_nil_r.
  - cbn [log_all file_lines].
    rewrite (log_file_mode_step p lg c path fm w Hmode Hopen Hfm), Hfm.
    destruct (rank (c_level c) <? LOG_LEVEL p).
    + rewrite append_nil_l. apply IH.
    + destruct (IH (ofstream_put (log_file_ lg)
                      (plain_line (c_level c) fm) w)) as (Hret & Hcerr & Hfile).
      split; [exact Hret |].
      split; [now rewrite Hcerr, cerr_bytes_ofstream_put |].
      rewrite Hfile, (file_content_put _ _ _ _ Hopen Hgood).
      apply append_assoc.
Qed.

(** The six calls of [test_file_logging], made on a logger built from the
    test's configuration where the file does not exist yet: the file ends
    up with six lines, one per call, in call order. *)
Lemma log_all_file_mode_witness :
  let lg := (Logger_new test_file_config fresh_world).1 in
  let w := (Logger_new test_file_config fresh_world).2 in
  (log_all default_process lg test_file_calls w).2 = Returned
  ∧ cerr_bytes (log_all default_process lg test_file_calls w).1 = ""
  ∧ file_content (log_all default_process lg test_file_calls w).1 "test_log.txt"
    = "[INFO] [test_file.cpp:10] This is a file info message" +:+ endl
      +:+ "[DEBUG] [test_file.cpp:20] This is a file debug message" +:+ endl
      +:+ "[WARNING] [test_file.cpp:30] This is a file warning message" +:+ endl
      +:+ "[ERROR] [test_file.cpp:40] This is a file error message" +:+ endl
      +:+ "[FATAL] [test_file.cpp:50] This is a file fatal message" +:+ endl
      +:+ "[TRACE] [test_file.cpp:60] This is a file trace message" +:+ endl.
Proof.
  intros lg w.
  destruct (log_all_file_mode default_process lg test_file_calls
              "test_log.txt" w) as (Hret & Hcerr & Hfile);
    [reflexivity.. | |].
  - repeat constructor; eexists; reflexivity.
  - split; [exact Hret |]. split; [exact Hcerr |].
    rewrite Hfile. vm_compute. reflexivity.
Defined.

(** ** Reading a line back *)

Lemma append_cancel_r (a b c : string) : a +:+ c = b +:+ c → a = b.
Proof.
  revert b. induction a as [|x a IH]; intros [|y b] H.
  - reflexivity.
  - symmetry in H. rewrite append_nil_l in H.
    now apply append_not_self in H.
  - rewrite append_nil_l in H. now apply append_not_self in H.
  - rewrite !append_cons in H. injection H as -> H. f_equal. now apply IH.
Qed.

(** X5: a plain line determines the level and the formatted message it was
    written for: the seven level names begin with different letters, so
    two records give the same line exactly when they agree on both. *)
Theorem plain_line_inj l1 m1 l2 m2 :
  plain_line l1 m1 = plain_line l2 m2 ↔ l1 = l2 ∧ m1 = m2.
Proof.
  split; [| now intros [-> ->]].
  unfold plain_line. intros H.
  destruct l1, l2; cbn [logLevelToString] in H;
    rewrite ?append_cons, ?append_nil_l in H;
    first [ discriminate H
          | injection H as H; apply append_cancel_r in H; now split ].
Qed.

(** ** The colour table *)

Lemma console_line_color_eq p lg lg' w level formattedMsg :
  level_color lg' level = level_color lg level ∨ check_color p w std_cerr = false →
  console_line p lg' w level formattedMsg = console_line p lg w level formattedMsg.
Proof.
  unfold console_line, colored_line. intros [-> | ->]; reflexivity.
Qed.

(** X6: [set_log_level_color] replaces the colour code of the level named
    and of no other level; [log] of a record of another level, or of any
    record while [check_color] is false for the error stream, is not
    affected by it; and a freshly constructed logger has the seven codes
    of [ColorDefs]. *)
Theorem set_log_level_color_scope l color lg :
  level_color (set_log_level_color l color lg) l = color
  ∧ (∀ l', l' ≠ l →
           level_color (set_log_level_color l color lg) l' = level_color lg l')
  ∧ (∀ p level file line msg w,
       level ≠ l ∨ check_color p w std_cerr = false →
       log p (set_log_level_color l color lg) level file line msg w
       = log p lg level file line msg w)
  ∧ (∀ config w level,
       level_color (Logger_new config w).1 level
       = code match level with
              | debug => ColorDefs.debug | info => ColorDefs.info
              | warn => ColorDefs.warn | error => ColorDefs.error
              | fatal => ColorDefs.fatal | trace => ColorDefs.trace
              | unknown => ColorDefs.unknown
              end).
Proof.
  assert (Hsame : level_color (set_log_level_color l color lg) l = color).
  { unfold level_color, set_log_level_color; cbn.
    now rewrite lookup_insert_eq. }
  assert (Hother : ∀ l', l' ≠ l →
            level_color (set_log_level_color l color lg) l' = level_color lg l').
  { intros l' Hne. unfold level_color, set_log_level_color; cbn.
    now rewrite lookup_insert_ne. }
  split; [exact Hsame |]. split; [exact Hother |]. split.
  - intros p level file line msg w Hcase. unfold log.
    destruct (rank level <? LOG_LEVEL p); [reflexivity |].
    destruct (render msg) as [text |]; [| reflexivity].
    cbn [formatter_ set_log_level_color].
    destruct (formatter_ lg level file line text) as [fm |]; [| reflexivity].
    rewrite !write_record_spec. cbn [output_mode_ log_file_ set_log_level_color].
    rewrite (console_line_color_eq p lg (set_log_level_color l color lg)
               w level fm); [reflexivity |].
    destruct Hcase as [Hne | Hoff]; [left; now apply Hother | now right].
  - intros config w level.
    assert (Hcolors : log_level_colors_ (Logger_new config w).1 = initial_colors).
    { unfold Logger_new.
      destruct (negb (String.eqb (log_file_name config) "")); [| reflexivity].
      now destruct (ofstream_open _ _ _). }
    unfold level_color. rewrite Hcolors. now destruct level.
Qed.

(** ** Opening the log file *)

Lemma ofstream_open_content (f : ofstream) (name path : string) (w : World) :
  file_content (ofstream_open f name w).2 path = file_content w path.
Proof.
  unfold ofstream_open, file_content.
  destruct (opened f); [reflexivity |].
  destruct (openable w name); [| reflexivity]. cbn.
  destruct (decide (name = path)) as [-> | Hne].
  - now rewrite lookup_insert_eq.
  - now rewrite lookup_insert_ne.
Qed.

Lemma ofstream_open_frame (f : ofstream) (name : string) (w : World) :
  cerr_bytes (ofstream_open f name w).2 = cerr_bytes w
  ∧ cout_bytes (ofstream_open f name w).2 = cout_bytes w.
Proof.
  unfold ofstream_open.
  destruct (opened f); [now split |].
  now destruct (openable w name).
Qed.

Lemma Logger_new_named config w :
  log_file_name config ≠ "" →
  (Logger_new config w).2
  = (ofstream_open closed_ofstream (log_file_name config) w).2
  ∧ log_file_ (Logger_new config w).1
    = (ofstream_open closed_ofstream (log_file_name config) w).1.
Proof.
  intros Hne. unfold Logger_new.
  apply String.eqb_neq in Hne. rewrite Hne. cbn [negb log_file_].
  now destruct (ofstream_open closed_ofstream (log_file_name config) w).
Qed.

Lemma Logger_new_unnamed config w :
  log_file_name config = "" →
  (Logger_new config w).2 = w
  ∧ log_file_ (Logger_new config w).1 = closed_ofstream.
Proof. intros He. unfold Logger_new. rewrite He. now split. Qed.

(** X7: constructing a logger never truncates: every path has the content
    it had, and the standard streams are untouched.  With an empty file
    name the world is unchanged and the stream stays closed; with the name
    of a path that can be opened the stream is open on it and good, and
    the file exists afterwards. *)
Theorem Logger_new_keeps_content config w :
  (∀ path, file_content (Logger_new config w).2 path = file_content w path)
  ∧ cerr_bytes (Logger_new config w).2 = cerr_bytes w
  ∧ cout_bytes (Logger_new config w).2 = cout_bytes w
  ∧ (log_file_name config = "" →
     (Logger_new config w).2 = w
     ∧ log_file_ (Logger_new config w).1 = closed_ofstream)
  ∧ (log_file_name config ≠ "" ∧ openable w (log_file_name config) = true →
     log_file_ (Logger_new config w).1
     = {| opened := Some (log_file_name config); failbit := false |}
     ∧ is_Some (files (Logger_new config w).2 !! log_file_name config)).
Proof.
  destruct (String.eqb_spec (log_file_name config) "") as [He | Hne].
  - destruct (Logger_new_unnamed config w He) as [Hw Hf].
    rewrite Hw. split; [reflexivity |]. split; [reflexivity |].
    split; [reflexivity |]. split; [now intros _ |].
    intros [Hne _]. contradiction.
  - destruct (Logger_new_named config w Hne) as [Hw Hf]. rewrite Hw, Hf.
    split; [intros path; apply ofstream_open_content |].
    split; [apply ofstream_open_frame |].
    split; [apply ofstream_open_frame |].
    split; [intros He; contradiction |].
    intros [_ Hopen]. unfold ofstream_open. cbn [opened closed_ofstream].
    rewrite Hopen. cbn. split; [reflexivity |].
    rewrite lookup_insert_eq. eauto.
Qed.

(** A logger built for "a.log" while that file already holds a line: the
    line is still there, and the stream is open on the file. *)
Lemma Logger_new_keeps_content_witness :
  let w := set_files (<["a.log" := "old line" +:+ endl]> ∅) fresh_world in
  (log_file_name file_config ≠ "" ∧ openable w (log_file_name file_config) = true)
  ∧ file_content (Logger_new file_config w).2 "a.log" = "old line" +:+ endl
  ∧ log_file_ (Logger_new file_config w).1
    = {| opened := Some "a.log"; failbit := false |}.
Proof.
  intros w.
  assert (H : log_file_name file_config ≠ ""
              ∧ openable w (log_file_name file_config) = true)
    by (split; [discriminate | reflexivity]).
  split; [exact H |].
  destruct (Logger_new_keeps_content file_config w) as (Hc & _ & _ & _ & Ho).
  split; [now rewrite Hc | exact (proj1 (Ho H))].
Defined.

(** X8: when the path named cannot be opened, by the constructor or by
    [set_log_file] on a logger without an open file, nothing is written
    anywhere, the stream stays closed, and the logger writes to the error
    stream in every output mode: an accepted record appends its console
    line there and changes no file. *)
Theorem open_failure_falls_back_to_cerr :
  (∀ config w,
     log_file_name config ≠ "" ∧ openable w (log_file_name config) = false →
     (Logger_new config w).2 = w
     ∧ is_open (log_file_ (Logger_new config w).1) = false)
  ∧ (∀ name lg w,
       opened (log_file_ lg) = None ∧ openable w name = false →
       (set_log_file name lg w).2 = w
       ∧ is_open (log_file_ (set_log_file name lg w).1) = false)
  ∧ (∀ p lg level file line msg text formattedMsg w,
       is_open (log_file_ lg) = false
       ∧ LOG_LEVEL p ≤ rank level
       ∧ render msg = Ok text
       ∧ formatter_ lg level file line text = Ok formattedMsg →
       log p lg level file line msg w
       = (cerr_put (console_line p lg w level formattedMsg) w, Returned)).
Proof.
  split; [| split].
  - intros config w [Hne Hlocked]. unfold Logger_new.
    apply String.eqb_neq in Hne. rewrite Hne. cbn [negb].
    unfold ofstream_open. cbn [log_file_ opened closed_ofstream].
    rewrite Hlocked. now split.
  - intros name lg w [Hclosed Hlocked].
    unfold set_log_file, ofstream_open. rewrite Hclosed, Hlocked. now split.
  - intros p lg level file line msg text fm w (Hclosed & Hfloor & Hr & Hf).
    rewrite (log_accepted _ _ _ _ _ _ _ _ _ Hfloor Hr Hf), write_record_spec.
    rewrite Hclosed. now destruct (output_mode_ lg).
Qed.

(** X9: [set_log_file] on a logger without an open file, naming a path
    that can be opened, opens it and clears the failure bit an earlier
    failed open may have left; no file content changes by the call; and in
    File mode the next accepted record is appended to that file after the
    content it had, the error stream receiving nothing. *)
Theorem set_log_file_on_closed_stream name lg w :
  opened (log_file_ lg) = None →
  openable w name = true →
  let lg' := (set_log_file name lg w).1 in
  let w' := (set_log_file name lg w).2 in
  log_file_ lg' = {| opened := Some name; failbit := false |}
  ∧ (∀ path, file_content w' path = file_content w path)
  ∧ cerr_bytes w' = cerr_bytes w
  ∧ (∀ p level file line msg text formattedMsg,
       output_mode_ lg = File →
       LOG_LEVEL p ≤ rank level →
       render msg = Ok text →
       formatter_ lg level file line text = Ok formattedMsg →
       file_content (log p lg' level file line msg w').1 name
       = file_content w name +:+ plain_line level formattedMsg
       ∧ cerr_bytes (log p lg' level file line msg w').1 = cerr_bytes w).
Proof.
  intros Hclosed Hopen. cbn zeta.
  pose proof (fun path => ofstream_open_content (log_file_ lg) name path w)
    as Hcontent.
  assert (Ho : ofstream_open (log_file_ lg) name w
               = ({| opened := Some name; failbit := false |},
                  set_files (<[name := default "" (files w !! name)]> (files w)) w))
    by (unfold ofstream_open; now rewrite Hclosed, Hopen).
  unfold set_log_file. rewrite Ho in Hcontent |- *.
  cbn [fst snd log_file_ with_log_file] in *.
  split; [reflexivity |]. split; [exact Hcontent |].
  split; [reflexivity |].
  intros p level file line msg text fm Hmode Hfloor Hr Hf.
  rewrite (log_accepted p
             (with_log_file {| opened := Some name; failbit := false |} lg)
             level file line msg text fm _ Hfloor Hr Hf).
  cbn [fst]. rewrite write_record_spec.
  cbn [output_mode_ log_file_ with_log_file is_open opened]. rewrite Hmode.
  split.
  - rewrite (file_content_put _ name) by reflexivity.
    now rewrite (Hcontent name).
  - now rewrite cerr_bytes_ofstream_put.
Qed.

(** A logger whose constructor could not open "a.log" is later given
    "b.log", which can be opened: the failure bit is cleared and the next
    record is in "b.log". *)
Lemma set_log_file_on_closed_stream_witness :
  let lg := (Logger_new file_config locked_world).1 in
  log_file_ lg = {| opened := None; failbit := true |}
  ∧ log_file_ (set_log_file "b.log" lg fresh_world).1
    = {| opened := Some "b.log"; failbit := false |}
  ∧ file_content
      (log default_process (set_log_file "b.log" lg fresh_world).1
         info "" 0 (CString "hi") (set_log_file "b.log" lg fresh_world).2).1
      "b.log"
    = "[INFO] hi" +:+ endl.
Proof.
  intros lg. split; [reflexivity |].
  destruct (set_log_file_on_closed_stream "b.log" lg fresh_world eq_refl eq_refl)
    as (Hstream & _ & _ & Hlog).
  split; [exact Hstream |].
  destruct (Hlog default_process info "" 0 (CString "hi") "hi" "hi"
              eq_refl
              ltac:(unfold default_process, LOG_LEVEL_DEBUG; cbn; lia)
              eq_refl eq_refl) as [Hfile _].
  rewrite Hfile. reflexivity.
Defined.

(** A logger built for a file in a world where no file can be opened, in
    File mode: the record goes to the error stream. *)
Lemma open_failure_falls_back_to_cerr_witness :
  let lg := (Logger_new file_config locked_world).1 in
  let w := (Logger_new file_config locked_world).2 in
  w = locked_world
  ∧ is_open (log_file_ lg) = false
  ∧ cerr_bytes (log default_process lg info "" 0 (CString "hi") w).1
    = "[INFO] hi" +:+ endl.
Proof.
  intros lg w.
  destruct open_failure_falls_back_to_cerr as (Hnew & _ & Hlog).
  destruct (Hnew file_config locked_world) as [Hw Hclosed];
    [split; [discriminate | reflexivity] |].
  split; [exact Hw |]. split; [exact Hclosed |].
  rewrite (Hlog default_process lg info "" 0 (CString "hi") "hi" "hi" w).
  - reflexivity.
  - split; [exact Hclosed |].
    split; [unfold default_process, LOG_LEVEL_DEBUG; cbn; lia |].
    split; reflexivity.
Defined.

(** ** The stack trace and the whole of [handle_error] *)

Lemma trace_lines_fold (lines : list string) (w : World) :
  foldl (fun w message => cerr_put endl (cerr_put message w)) w lines
  = cerr_put (foldr (fun message rest => message +:+ endl +:+ rest) "" lines) w.
Proof.
  revert w. induction lines as [|m lines IH]; intros w; cbn [foldl foldr].
  - now rewrite cerr_put_nil.
  - now rewrite IH, !cerr_put_put, ?append_assoc.
Qed.

(** X10: [log_stack_trace] appends to the error stream the line
    "Stack trace:" followed by one line per symbol, in the order
    [backtrace_symbols] gave them, and changes nothing else: no file,
    nothing on standard output. *)
Theorem log_stack_trace_spec p w :
  log_stack_trace p w = cerr_put (trace_text p) w
  ∧ cerr_bytes (log_stack_trace p w) = cerr_bytes w +:+ trace_text p
  ∧ files (log_stack_trace p w) = files w
  ∧ cout_bytes (log_stack_trace p w) = cout_bytes w.
Proof.
  assert (H : log_stack_trace p w = cerr_put (trace_text p) w).
  { unfold log_stack_trace, trace_text.
    now rewrite trace_lines_fold, !cerr_put_put, ?append_assoc. }
  rewrite H. repeat split.
Qed.

Lemma log_stack_trace_cerr_put p w :
  log_stack_trace p w = cerr_put (trace_text p) w.
Proof.
  unfold log_stack_trace, trace_text.
  now rewrite trace_lines_fold, !cerr_put_put, ?append_assoc.
Qed.

Lemma write_record_cerr p lg level formattedMsg w :
  getLogStream lg = std_cerr →
  write_record p lg level formattedMsg w
  = cerr_put (console_line p lg w level formattedMsg) w.
Proof.
  intros Hstream. rewrite write_record_spec.
  unfold getLogStream in Hstream.
  destruct (output_mode_ lg), (is_open (log_file_ lg));
    first [reflexivity | discriminate Hstream].
Qed.

(** X11: the whole output of [handle_error] on a logger that writes to the
    error stream, uses the default formatter and default handler and has
    no handler for the exception's type: the error-level line with the
    exception's message, which is left out when the floor [LOG_LEVEL] is
    above the rank of error, then the stack trace, then
    "Unhandled exception: <what>", all on the error stream in this order,
    and the call returns. *)
Theorem handle_error_default_output p lg e ctx w :
  getLogStream lg = std_cerr →
  formatter_ lg = default_formatter →
  handlers_ lg !! type_name e = None →
  default_handler_ lg = stock_default_handler →
  handle_error p lg e ctx w
  = (cerr_put ((if rank error <? LOG_LEVEL p then ""
                else console_line p lg w error (what e))
               +:+ trace_text p
               +:+ "Unhandled exception: " +:+ what e +:+ endl) w,
     Returned).
Proof.
  intros Hstream Hfmt Hnone Hdefault.
  unfold handle_error, Logger_error.
  destruct (rank error <? LOG_LEVEL p) eqn:E.
  - apply Z.ltb_lt in E.
    rewrite (log_below_floor p lg error ctx 0 _ w E).
    rewrite Hnone, Hdefault, stock_default_handler_spec.
    rewrite log_stack_trace_cerr_put.
    now rewrite !cerr_put_put, append_nil_l.
  - apply Z.ltb_ge in E.
    rewrite (log_accepted p lg error ctx 0 (CString (what e)) (what e) (what e)
               w E eq_refl)
      by (rewrite Hfmt; apply default_formatter_line_zero).
    rewrite Hnone, Hdefault, stock_default_handler_spec.
    rewrite log_stack_trace_cerr_put, write_record_cerr by exact Hstream.
    now rewrite !cerr_put_put, ?append_assoc.
Qed.

(** The default logger of [test_sync_logging_default] handling
    [std::runtime_error("Test exception")], with two symbols in the
    backtrace. *)
Lemma handle_error_default_output_witness :
  let p := {| LOG_LEVEL := LOG_LEVEL_DEBUG; terminal := terminal default_process;
              backtrace_lines := ["main+0x10"; "start+0x20"] |} in
  let lg := (Logger_new default_config fresh_world).1 in
  cerr_bytes (handle_error p lg (runtime_error "Test exception")
                "test_sync_logging_default" fresh_world).1
  = "[ERROR] Test exception" +:+ endl
    +:+ "Stack trace:" +:+ endl
    +:+ "main+0x10" +:+ endl +:+ "start+0x20" +:+ endl
    +:+ "Unhandled exception: Test exception" +:+ endl.
Proof.
  intros p lg.
  rewrite (handle_error_default_output p lg (runtime_error "Test exception")
             "test_sync_logging_default" fresh_world);
    reflexivity.
Defined.

(** X12: after [set_default_error_handler(h)], an exception whose type has
    no registered handler is given to [h], the handler the constructor
    installed playing no part; a registered handler still takes
    precedence.  Stated for calls whose error-level logging step has
    returned. *)
Theorem set_default_error_handler_used p lg h e ctx w w1 :
  Logger_error p lg ctx 0 (CString (what e)) w = (w1, Returned) →
  handle_error p (set_default_error_handler h lg) e ctx w
  = match handlers_ lg !! type_name e with
    | Some registered => registered e (log_stack_trace p w1)
    | None => h e (log_stack_trace p w1)
    end.
Proof.
  intros Hlog. unfold handle_error.
  change (Logger_error p (set_default_error_handler h lg) ctx 0
            (CString (what e)) w)
    with (Logger_error p lg ctx 0 (CString (what e)) w).
  now rewrite Hlog.
Qed.

(** [test_sync_logging_custom]: with [custom_error_handler] as the default
    handler the custom line is written and "Unhandled exception" is not. *)
Lemma set_default_error_handler_used_witness :
  let lg := (Logger_new (config_with custom_formatter) fresh_world).1 in
  let out := cerr_bytes
               (handle_error default_process
                  (set_default_error_handler custom_error_handler lg)
                  (runtime_error "Test exception") "test_sync_logging_custom"
                  fresh_world).1 in
  out = "[ERROR] [test_sync_logging_custom:0] Test exception" +:+ endl
        +:+ "Stack trace:" +:+ endl
        +:+ "Custom handler caught exception: Test exception" +:+ endl
  ∧ contains "Unhandled exception" out = false.
Proof.
  intros lg out. unfold out.
  rewrite (set_default_error_handler_used default_process lg
             custom_error_handler (runtime_error "Test exception")
             "test_sync_logging_custom" fresh_world
             (Logger_error default_process lg "test_sync_logging_custom" 0
                (CString "Test exception") fresh_world).1 eq_refl).
  vm_compute. split; reflexivity.
Defined.

(** X13: when the floor [LOG_LEVEL] is above the rank of error (a build
    with [LOG_LEVEL_FATAL] or [LOG_LEVEL_TRACE]), [handle_error] writes no
    error-level line, but still writes the stack trace and still calls the
    registered or default handler. *)
Theorem handle_error_below_floor p lg e ctx w :
  rank error < LOG_LEVEL p →
  handle_error p lg e ctx w
  = match handlers_ lg !! type_name e with
    | Some registered => registered e (cerr_put (trace_text p) w)
    | None => default_handler_ lg e (cerr_put (trace_text p) w)
    end.
Proof.
  intros Hfloor. unfold handle_error, Logger_error.
  rewrite (log_below_floor p lg error ctx 0 _ w Hfloor).
  now rewrite log_stack_trace_cerr_put.
Qed.

(** In a build with floor [LOG_LEVEL_FATAL] the output of [handle_error]
    starts with the stack trace. *)
Lemma handle_error_below_floor_witness :
  let lg := (Logger_new default_config fresh_world).1 in
  cerr_bytes (handle_error fatal_floor_process lg (runtime_error "boom") "ctx"
                fresh_world).1
  = "Stack trace:" +:+ endl
    +:+ "main+0x10" +:+ endl +:+ "start+0x20" +:+ endl
    +:+ "Unhandled exception: boom" +:+ endl.
Proof.
  intros lg.
  rewrite (handle_error_below_floor fatal_floor_process lg
             (runtime_error "boom") "ctx" fresh_world);
    [reflexivity | unfold fatal_floor_process, LOG_LEVEL_FATAL; cbn; lia].
Defined.

(** X14: when the formatter throws something outside [std::exception] on
    the error-level record, [handle_error] lets it escape before anything
    is written: no stack trace, no handler call, the world unchanged. *)
Theorem handle_error_propagates p lg e ctx w :
  LOG_LEVEL p ≤ rank error →
  formatter_ lg error ctx 0 (what e) = Throw ThrowOther →
  handle_error p lg e ctx w = (w, Propagates ThrowOther).
Proof.
  intros Hfloor Hthrow. unfold handle_error, Logger_error, log.
  destruct (rank error <? LOG_LEVEL p) eqn:E; [apply Z.ltb_lt in E; lia |].
  cbn [render]. now rewrite Hthrow.
Qed.

(** A logger whose formatter throws a foreign value, with a handler
    registered for the exception's type: the handler is not reached. *)
Lemma handle_error_propagates_witness :
  let lg := register_error_handler "St13runtime_error" custom_error_handler
              (Logger_new (config_with foreign_throwing_formatter)
                 fresh_world).1 in
  handle_error default_process lg (runtime_error "boom") "ctx" fresh_world
  = (fresh_world, Propagates ThrowOther).
Proof.
  intros lg.
  apply (handle_error_propagates default_process lg (runtime_error "boom")
           "ctx" fresh_world);
    [unfold default_process, LOG_LEVEL_DEBUG; cbn; lia | reflexivity].
Defined.

(** ** The two headers *)

(** X15: [Logger::log] of [colorlog_cpp17.hpp], which formats the
    [std::string] it is given directly, does what [Logger::log] of
    [colorlog.hpp] does for the same text passed as a [std::string]
    (streamed character by character) or as a C string. *)
Theorem cpp17_log_agrees p lg level file line s w :
  Cpp17.log p lg level file line s w = log p lg level file line (StdString s) w
  ∧ Cpp17.log p lg level file line s w = log p lg level file line (CString s) w.
Proof.
  unfold Cpp17.log, log. rewrite render_StdString. cbn [render].
  split; reflexivity.
Qed.

(** ** The asynchronous logger against the synchronous one *)

Lemma replay_cons p lg r rs w :
  replay p lg (r :: rs) w = replay p lg rs (forward p lg r w).1.
Proof. reflexivity. Qed.

Lemma log_all_calls_of p lg rs w :
  throws_only_std (formatter_ lg) →
  log_all p lg (calls_of rs) w = (replay p lg rs w, Returned).
Proof.
  intros Hfmt. revert w. induction rs as [|r rs IH]; intros w; [reflexivity |].
  rewrite replay_cons. cbn [calls_of fmap list_fmap log_all c_level c_file
                            c_line c_msg].
  change (log p lg (level r) (file r) (line r) (StdString (msg r)) w)
    with (forward p lg r w).
  pose proof (forward_returns p lg r w Hfmt) as Hret.
  destruct (forward p lg r w) as [w' c]. cbn in Hret. subst c.
  apply IH.
Qed.

(** X16: the asynchronous logger does to the world what the synchronous
    logger does when called directly with the same records in the same
    order.  For a formatter that throws nothing outside [std::exception],
    in whatever way the two threads interleave, once the destructor has
    returned the world is the one the sequence of calls [logger.log(r1);
    ...; logger.log(rN)] produces, the queue is empty and every record has
    been forwarded. *)
Theorem async_equals_sync p config rs w s :
  throws_only_std (formatter config) →
  reachable p (async_init config rs w) s →
  producer s = Destroyed →
  log_all p (Logger_new config w).1 (calls_of rs) (Logger_new config w).2
  = (world s, Returned)
  ∧ received s = rs
  ∧ queue s = [].
Proof.
  intros Hfmt Hreach Hdone.
  destruct (async_inv_reachable p config rs w s Hfmt Hreach)
    as (_ & Hrs & Hw & _ & Hpc & Hexit).
  rewrite Hdone in Hpc, Hrs. destruct Hpc as [_ Hwk].
  specialize (Hexit Hwk). rewrite Hexit in Hrs. cbn in Hrs.
  rewrite !app_nil_r in Hrs.
  rewrite log_all_calls_of by now rewrite Logger_new_formatter.
  split; [| split; assumption]. now rewrite Hw, Hrs.
Qed.

(** The run of two records: the world the asynchronous logger leaves is
    the world two direct calls leave. *)
Lemma async_equals_sync_witness :
  log_all default_process (Logger_new default_config fresh_world).1
    (calls_of two_records) (Logger_new default_config fresh_world).2
  = (world two_records_done, Returned)
  ∧ cerr_bytes (world two_records_done)
    = "[INFO] a.cpp:10 one" +:+ endl +:+ "[WARNING] a.cpp:20 two" +:+ endl.
Proof.
  assert (Hreach : reachable default_process
            (async_init default_config two_records fresh_world)
            two_records_done).
  { cbn.
    eapply reach_first; [apply producer_log; discriminate |].
    eapply reach_first; [apply worker_wake; left; discriminate |].
    eapply reach_first; [eapply worker_forward; reflexivity |].
    eapply reach_first; [apply worker_loop |].
    eapply reach_first; [apply producer_log; discriminate |].
    eapply reach_first; [apply producer_stop; discriminate |].
    eapply reach_first; [apply worker_wake; now right |].
    eapply reach_first; [eapply worker_forward; reflexivity |].
    eapply reach_first; [apply worker_exit |].
    eapply reach_first; [apply producer_join |].
    apply reach_start. }
  split.
  - apply (async_equals_sync default_process default_config two_records
             fresh_world two_records_done);
      [ intros lvl f l m; unfold default_config, default_formatter; cbn;
        discriminate
      | exact Hreach | reflexivity ].
  - vm_compute. reflexivity.
Defined.

Lemma forward_foreign p lg r w :
  LOG_LEVEL p ≤ rank (level r) →
  formatter_ lg (level r) (file r) (line r) (msg r) = Throw ThrowOther →
  forward p lg r w = (w, Propagates ThrowOther).
Proof.
  intros Hfloor Hthrow. unfold forward, log.
  destruct (rank (level r) <? LOG_LEVEL p) eqn:E; [apply Z.ltb_lt in E; lia |].
  now rewrite render_StdString, Hthrow.
Qed.

(** X17: nothing in [processQueue] catches.  When the formatter throws
    something outside [std::exception] on the entry at the front of the
    queue while the worker drains, the only action possible is the one
    that ends the worker by [std::terminate]: the entry is still in the
    queue, the entries behind it are never forwarded, the world is
    unchanged, and no thread can act any more. *)
Theorem worker_crash_is_final p lg r q st pc w rcv s' :
  LOG_LEVEL p ≤ rank (level r) →
  formatter_ lg (level r) (file r) (line r) (msg r) = Throw ThrowOther →
  step p
    {| async := {| logger_ := lg; log_queue_ := r :: q; stop_thread_ := st |};
       worker := Draining; producer := pc; world := w; received := rcv |}
    s' →
  worker s' = Terminated
  ∧ queue s' = r :: q
  ∧ world s' = w
  ∧ (∀ s'', ¬ step p s' s'').
Proof.
  intros Hfloor Hthrow Hstep.
  pose proof (forward_foreign p lg r w Hfloor Hthrow) as Hfwd.
  assert (Hshape : worker s' = Terminated ∧ queue s' = r :: q ∧ world s' = w).
  { inversion Hstep; subst; try contradiction.
    - match goal with H : forward _ _ _ _ = (_, Returned) |- _ =>
        rewrite Hfwd in H; discriminate H end.
    - match goal with H : forward _ _ _ _ = (_, Propagates _) |- _ =>
        rewrite Hfwd in H; injection H as <- _ end.
      repeat split. }
  destruct Hshape as (Hwk & Hq & Hw).
  repeat split; try assumption.
  intros s''. now apply terminated_is_stuck.
Qed.

(** Two records queued on a logger whose formatter throws a foreign value:
    the worker ends on the first one and the second is never forwarded. *)
Lemma worker_crash_is_final_witness :
  let lg := (Logger_new (config_with foreign_throwing_formatter)
               fresh_world).1 in
  let before :=
    {| async := {| logger_ := lg; log_queue_ := two_records;
                   stop_thread_ := false |};
       worker := Draining; producer := Submitting []; world := fresh_world;
       received := [] |} in
  let after :=
    {| async := {| logger_ := lg; log_queue_ := two_records;
                   stop_thread_ := false |};
       worker := Terminated; producer := Submitting []; world := fresh_world;
       received := [ {| level := info; file := "a.cpp"; line := 10;
                        msg := "one" |} ] |} in
  step default_process before after
  ∧ worker after = Terminated
  ∧ (∀ s'', ¬ step default_process after s'').
Proof.
  intros lg before after.
  assert (Hstep : step default_process before after)
    by (eapply worker_crash; reflexivity).
  split; [exact Hstep |].
  destruct (worker_crash_is_final default_process lg
              {| level := info; file := "a.cpp"; line := 10; msg := "one" |}
              [ {| level := warn; file := "a.cpp"; line := 20; msg := "two" |} ]
              false (Submitting []) fresh_world [] after)
    as (Hwk & _ & _ & Hstuck);
    [unfold default_process, LOG_LEVEL_DEBUG; cbn; lia | reflexivity
    | exact Hstep |].
  split; [exact Hwk | exact Hstuck].
Defined.

(** ** Silence *)

Lemma append_not_left (a b : string) : b ≠ "" → a +:+ b ≠ a.
Proof.
  intros Hb H. apply (f_equal String.length) in H.
  rewrite length_append in H. destruct b; [contradiction | cbn in H; lia].
Qed.

Lemma plain_line_not_empty level formattedMsg : plain_line level formattedMsg ≠ "".
Proof. unfold plain_line. now rewrite append_cons. Qed.

Lemma console_line_not_empty p lg w level formattedMsg :
  console_line p lg w level formattedMsg ≠ "".
Proof.
  unfold console_line, colored_line, plain_line.
  destruct (check_color p w std_cerr); now rewrite append_cons.
Qed.

Lemma cerr_put_changes (s : string) (w : World) : s ≠ "" → cerr_put s w ≠ w.
Proof.
  intros Hs H. apply (f_equal cerr_bytes) in H. cbn in H.
  now apply append_not_left in H.
Qed.

Lemma ofstream_put_changes (f : ofstream) (path s : string) (w : World) :
  opened f = Some path → failbit f = false → s ≠ "" → ofstream_put f s w ≠ w.
Proof.
  intros Hopen Hgood Hs H.
  apply (f_equal (fun w => files w !! path)) in H.
  unfold ofstream_put in H. rewrite Hopen, Hgood in H. cbn in H.
  rewrite lookup_insert_eq in H.
  destruct (files w !! path) as [c|]; [| discriminate H].
  cbn in H. injection H as H. now apply append_not_left in H.
Qed.

(** X18: the floor is the only silent filter.  For a message that renders
    and formats without throwing, on a logger whose file stream has no
    failure bit set, [log] leaves the world exactly as it was if and only
    if the rank of the level is below [LOG_LEVEL]. *)
Theorem log_silent_iff_below_floor p lg level file line msg text formattedMsg w :
  render msg = Ok text →
  formatter_ lg level file line text = Ok formattedMsg →
  failbit (log_file_ lg) = false →
  (log p lg level file line msg w).1 = w ↔ rank level < LOG_LEVEL p.
Proof.
  intros Hr Hf Hgood. split.
  - intros Hsame.
    destruct (Z.lt_ge_cases (rank level) (LOG_LEVEL p)) as [Hlt | Hge];
      [exact Hlt | exfalso].
    rewrite (log_accepted _ _ _ _ _ _ _ _ _ Hge Hr Hf) in Hsame.
    cbn [fst] in Hsame. rewrite write_record_spec in Hsame.
    unfold is_open in Hsame.
    destruct (output_mode_ lg), (opened (log_file_ lg)) as [path|] eqn:Hopen;
      try (apply cerr_put_changes in Hsame;
           [exact Hsame | apply console_line_not_empty]).
    + apply (ofstream_put_changes _ path) in Hsame;
        [exact Hsame | assumption.. | apply plain_line_not_empty].
    + rewrite ofstream_put_put in Hsame.
      apply (ofstream_put_changes _ path) in Hsame;
        [exact Hsame | assumption.. |].
      intros Hempty. apply (f_equal String.length) in Hempty.
      rewrite length_append in Hempty.
      pose proof (plain_line_not_empty level formattedMsg) as Hne.
      destruct (plain_line level formattedMsg); [contradiction |].
      cbn in Hempty. lia.
  - intros Hlt. now rewrite (log_below_floor _ _ _ _ _ _ _ Hlt).
Qed.

(** In a build with floor [LOG_LEVEL_FATAL] an error record changes
    nothing, and a fatal record does. *)
Lemma log_silent_iff_below_floor_witness :
  let lg := (Logger_new default_config fresh_world).1 in
  (log fatal_floor_process lg error "" 0 (CString "hi") fresh_world).1
  = fresh_world
  ∧ (log fatal_floor_process lg fatal "" 0 (CString "hi") fresh_world).1
    ≠ fresh_world.
Proof.
  intros lg. split.
  - apply (log_silent_iff_below_floor fatal_floor_process lg error "" 0
             (CString "hi") "hi" "hi" fresh_world eq_refl eq_refl eq_refl).
    unfold fatal_floor_process, LOG_LEVEL_FATAL; cbn; lia.
  - intros H.
    apply (log_silent_iff_below_floor fatal_floor_process lg fatal "" 0
             (CString "hi") "hi" "hi" fresh_world eq_refl eq_refl eq_refl) in H.
    unfold fatal_floor_process, LOG_LEVEL_FATAL in H; cbn in H; lia.
Defined.
